(** * bsf: runtime closure graph of a Nix build output

    A shallow embedding of [pkg/nix/cmd/closure.go].  Go strings are byte
    sequences and are embedded as [string]; the file system the program
    reads is an explicit tree that is passed to every operation; Go's
    [(value, error)] results are embedded as [result]. *)

From stdpp Require Import base decidable option list sorting gmap strings.
From Stdlib Require Import ZArith Ascii String Lia.

Local Open Scope string_scope.
Local Open Scope list_scope.

(** ** Go's [error] values and [(T, error)] results *)

Inductive errno := ENOENT | ENOTDIR | EISDIR | EINVAL | ELOOP.

(** [*fs.PathError] as returned by package [os], and the string errors made
    by [fmt.Errorf] / [errors.New]. *)
Inductive error :=
| PathError (op path : string) (e : errno)
| errorString (msg : string).

Definition errno_Error (e : errno) : string :=
  match e with
  | ENOENT => "no such file or directory"
  | ENOTDIR => "not a directory"
  | EISDIR => "is a directory"
  | EINVAL => "invalid argument"
  | ELOOP => "too many levels of symbolic links"
  end.

(** The [Error()] method. *)
Definition Error (e : error) : string :=
  match e with
  | PathError op path en => op +:+ " " +:+ path +:+ ": " +:+ errno_Error en
  | errorString msg => msg
  end.

Inductive result (A : Type) :=
| Ok (a : A)
| Err (e : error).
Arguments Ok {A} a.
Arguments Err {A} e.

#[global] Instance result_ret : MRet result := @Ok.
#[global] Instance result_bind : MBind result := λ A B k r,
  match r with
  | Ok a => k a
  | Err e => Err e
  end.

(** ** Package [strings] *)

Module strings.

Definition HasPrefix (s pre : string) : bool := String.prefix pre s.

Fixpoint drop (n : nat) (s : string) : string :=
  match n, s with
  | S n', String _ s' => drop n' s'
  | _, _ => s
  end.

(** [strings.TrimPrefix(s, prefix)] *)
Definition TrimPrefix (s pre : string) : string :=
  if HasPrefix s pre then drop (String.length pre) s else s.

Fixpoint mem (c : ascii) (cutset : string) : bool :=
  match cutset with
  | EmptyString => false
  | String d rest => if Ascii.eqb c d then true else mem c rest
  end.

Fixpoint TrimLeft (s cutset : string) : string :=
  match s with
  | EmptyString => EmptyString
  | String c s' => if mem c cutset then TrimLeft s' cutset else s
  end.

Fixpoint TrimRight (s cutset : string) : string :=
  match s with
  | EmptyString => EmptyString
  | String c s' =>
      match TrimRight s' cutset with
      | EmptyString => if mem c cutset then EmptyString else String c EmptyString
      | r => String c r
      end
  end.

(** [strings.Trim(s, cutset)] for a cutset of ASCII bytes: every leading
    and every trailing byte of [s] that is in [cutset] is removed. *)
Definition Trim (s cutset : string) : string :=
  TrimRight (TrimLeft s cutset) cutset.

(** Left-to-right scan shared by [Replace] and [Split]: [skip] counts the
    bytes of a match of [old] that are still to be passed over. *)
Fixpoint replace_from (old new : string) (skip : nat) (s : string) : string :=
  match s with
  | EmptyString => EmptyString
  | String c s' =>
      match skip with
      | S k => replace_from old new k s'
      | O =>
          if String.prefix old s
          then new +:+ replace_from old new (String.length old - 1) s'
          else String c (replace_from old new 0 s')
      end
  end.

(** [strings.Replace(s, old, new, -1)] for a non-empty [old]: all
    non-overlapping occurrences, leftmost first. *)
Definition ReplaceAll (s old new : string) : string :=
  replace_from old new 0 s.

Fixpoint split_from (sep : string) (skip : nat) (cur : string) (s : string)
  : list string :=
  match s with
  | EmptyString => [cur]
  | String c s' =>
      match skip with
      | S k => split_from sep k cur s'
      | O =>
          if String.prefix sep s
          then cur :: split_from sep (String.length sep - 1) EmptyString s'
          else split_from sep 0 (cur +:+ String c EmptyString) s'
      end
  end.

(** [strings.Split(s, sep)] for a non-empty [sep]. *)
Definition Split (s sep : string) : list string :=
  split_from sep 0 EmptyString s.

End strings.

(** ** Bytes, [encoding/hex], [crypto/sha256] and [nixbase32]

    These packages are not part of the repository; they are embedded from
    their published definitions (FIPS 180-4 for SHA-256, the Nix base-32
    alphabet and bit order for [nixbase32]) so that the program can be run
    on concrete inputs. *)

Definition bytes_of_string (s : string) : list Z :=
  (λ c, Z.of_N (N_of_ascii c)) <$> list_ascii_of_string s.

Definition string_of_bytes (l : list Z) : string :=
  string_of_list_ascii ((λ b, ascii_of_N (Z.to_N (b mod 256))) <$> l).

Module hex.

Definition hextable : string := "0123456789abcdef".

Definition digit (n : Z) : string :=
  match String.get (Z.to_nat n) hextable with
  | Some c => String c EmptyString
  | None => EmptyString
  end.

(** [hex.EncodeToString] *)
Definition EncodeToString (src : string) : string :=
  String.concat EmptyString
    ((λ b, digit (Z.shiftr b 4) +:+ digit (Z.land b 15)) <$> bytes_of_string src).

End hex.

Module sha256.

Local Open Scope Z_scope.

Definition w32 (x : Z) : Z := x mod 2 ^ 32.
Definition add32 (x y : Z) : Z := w32 (x + y).
Definition rotr (n x : Z) : Z :=
  w32 (Z.lor (Z.shiftr x n) (Z.shiftl x (32 - n))).
Definition not32 (x : Z) : Z := 2 ^ 32 - 1 - x.

Definition Ch (x y z : Z) : Z := Z.lxor (Z.land x y) (Z.land (not32 x) z).
Definition Maj (x y z : Z) : Z :=
  Z.lxor (Z.lxor (Z.land x y) (Z.land x z)) (Z.land y z).
Definition Sigma0 (x : Z) : Z := Z.lxor (Z.lxor (rotr 2 x) (rotr 13 x)) (rotr 22 x).
Definition Sigma1 (x : Z) : Z := Z.lxor (Z.lxor (rotr 6 x) (rotr 11 x)) (rotr 25 x).
Definition sigma0 (x : Z) : Z := Z.lxor (Z.lxor (rotr 7 x) (rotr 18 x)) (Z.shiftr x 3).
Definition sigma1 (x : Z) : Z := Z.lxor (Z.lxor (rotr 17 x) (rotr 19 x)) (Z.shiftr x 10).

(** The round constants and the initial hash value are defined as in the
    standard: the first 32 bits of the fractional parts of the cube roots
    of the first 64 primes, and of the square roots of the first 8. *)
Definition is_prime (n : nat) : bool :=
  forallb (λ d, negb (n mod d =? 0)%nat) (seq 2 (n - 2)).

Definition primes (count : nat) : list Z :=
  Z.of_nat <$> take count (filter (λ n, is_prime n = true) (seq 2 400)).

(** The integer cube root, one bit at a time. *)
Fixpoint cube_root_bits (bits : nat) (n r : Z) : Z :=
  match bits with
  | O => r
  | S b =>
      let r' := r + 2 ^ Z.of_nat b in
      cube_root_bits b n (if decide (r' * r' * r' ≤ n) then r' else r)
  end.

Definition K : list Z :=
  (λ p, w32 (cube_root_bits 40 (p * 2 ^ 96) 0)) <$> primes 64.

Definition init : list Z :=
  (λ p, w32 (Z.sqrt (p * 2 ^ 64))) <$> primes 8.

(** Big-endian encodings. *)
Fixpoint be_bytes (n : nat) (x : Z) : list Z :=
  match n with
  | O => []
  | S n' => be_bytes n' (Z.shiftr x 8) ++ [x mod 256]
  end.

Definition be_word (bs : list Z) : Z :=
  foldl (λ acc b, acc * 256 + b) 0 bs.

(** The message followed by 0x80, zeroes up to 56 mod 64, and the bit
    length on 8 bytes. *)
Definition pad (msg : list Z) : list Z :=
  let len := Z.of_nat (List.length msg) in
  let zeros := Z.to_nat ((55 - len) mod 64) in
  msg ++ [128] ++ replicate zeros 0 ++ be_bytes 8 (8 * len).

Fixpoint chunks {A} (fuel n : nat) (l : list A) : list (list A) :=
  match fuel with
  | O => []
  | S fuel' =>
      match l with
      | [] => []
      | _ => take n l :: chunks fuel' n (List.skipn n l)
      end
  end.

(** The message schedule, most recent word first. *)
Fixpoint schedule (n : nat) (rev_w : list Z) : list Z :=
  match n with
  | O => rev_w
  | S n' =>
      let at_ i := nth i rev_w 0 in
      let w := add32 (add32 (sigma1 (at_ 1%nat)) (at_ 6%nat))
                     (add32 (sigma0 (at_ 14%nat)) (at_ 15%nat)) in
      schedule n' (w :: rev_w)
  end.

Record regs := Regs { ra : Z; rb : Z; rc : Z; rd : Z; re : Z; rf : Z; rg : Z; rh : Z }.

Definition round (r : regs) (kw : Z * Z) : regs :=
  let t1 := add32 (add32 (add32 (rh r) (Sigma1 (re r))) (Ch (re r) (rf r) (rg r)))
                  (add32 (fst kw) (snd kw)) in
  let t2 := add32 (Sigma0 (ra r)) (Maj (ra r) (rb r) (rc r)) in
  Regs (add32 t1 t2) (ra r) (rb r) (rc r) (add32 (rd r) t1) (re r) (rf r) (rg r).

Definition regs_of (h : list Z) : regs :=
  let at_ i := nth i h 0 in
  Regs (at_ 0%nat) (at_ 1%nat) (at_ 2%nat) (at_ 3%nat)
       (at_ 4%nat) (at_ 5%nat) (at_ 6%nat) (at_ 7%nat).

Definition list_of (r : regs) : list Z :=
  [ra r; rb r; rc r; rd r; re r; rf r; rg r; rh r].

Definition block (h : list Z) (blk : list Z) : list Z :=
  let w16 := be_word <$> chunks 16 4 blk in
  let w := reverse (schedule 48 (reverse w16)) in
  let r := foldl round (regs_of h) (zip K w) in
  zip_with add32 h (list_of r).

Definition digest (msg : list Z) : list Z :=
  let p := pad msg in
  let h := foldl block init (chunks (List.length p) 64 p) in
  h ≫= be_bytes 4.

(** [sha256.Sum256], and equally [h := sha256.New(); h.Write(data);
    h.Sum(nil)]: the 32 digest bytes. *)
Definition Sum256 (data : string) : string :=
  string_of_bytes (digest (bytes_of_string data)).

End sha256.

Module nixbase32.

Local Open Scope Z_scope.

(** omitted: E O U T *)
Definition alphabet : string := "0123456789abcdfghijklmnpqrsvwxyz".

Definition EncodedLen (n : Z) : Z :=
  if decide (n = 0) then 0 else (n * 8 - 1) / 5 + 1.

Definition char_at (src : list Z) (n : Z) : string :=
  let b := n * 5 in
  let i := b / 8 in
  let j := b mod 8 in
  let c := Z.shiftr (nth (Z.to_nat i) src 0) j in
  let c :=
    if decide (i + 1 < Z.of_nat (List.length src))
    then Z.lor c (Z.shiftl (nth (Z.to_nat (i + 1)) src 0) (8 - j) mod 256)
    else c in
  match String.get (Z.to_nat (Z.land c 31)) alphabet with
  | Some ch => String ch EmptyString
  | None => EmptyString
  end.

(** [nixbase32.EncodeToString]: characters are produced for
    [n = EncodedLen - 1] down to [0]. *)
Definition EncodeToString (src : string) : string :=
  let bs := bytes_of_string src in
  let n := Z.to_nat (EncodedLen (Z.of_nat (List.length bs))) in
  String.concat EmptyString
    ((λ k, char_at bs (Z.of_nat k)) <$> reverse (seq 0 n)).

End nixbase32.

(** ** The file system and package [os]

    The program only reads the file system.  It is embedded as a tree whose
    directories keep their entries in on-disk order; path resolution follows
    symbolic links (at most [maxSymlinks] of them), and understands [.],
    [..] and repeated slashes.  Permissions are not modelled: every object
    that exists is readable. *)

#[warnings="-register-all"]
Inductive inode :=
| IFile (executable : bool) (data : string)
| ILink (target : string)
| IDir (entries : list (string * inode)).

(** The outcome of running an external command. *)
Record ProcResult := {
  Stdout : string;
  Stderr : string;
  ExitOk : bool
}.

Record World := {
  root : inode;
  cwd : list string;
  (** what [exec.Command(name, args...).Run()] would produce *)
  run : string → list string → ProcResult
}.

Module os.

Fixpoint lookup_entry (name : string) (es : list (string * inode)) : option inode :=
  match es with
  | [] => None
  | (n, t) :: es' => if String.eqb n name then Some t else lookup_entry name es'
  end.

(** The object at a path that is already free of links and dots. *)
Fixpoint get (t : inode) (p : list string) : errno + inode :=
  match p with
  | [] => inr t
  | c :: p' =>
      match t with
      | IDir es =>
          match lookup_entry c es with
          | Some t' => get t' p'
          | None => inl ENOENT
          end
      | _ => inl ENOTDIR
      end
  end.

Definition is_dir (r : inode) (p : list string) : bool :=
  match get r p with
  | inr (IDir _) => true
  | _ => false
  end.

Definition maxSymlinks : nat := 40.

Definition components (p : string) : list string := strings.Split p "/".

Definition is_abs (p : string) : bool := strings.HasPrefix p "/".

(** [walk r links follow cur rest] resolves the components [rest] from the
    directory [cur] and returns the link-free path reached.  The final
    component is followed only when [follow] is set. *)
Fixpoint walk (r : inode) (links : nat) (follow : bool)
    (cur rest : list string) {struct links} : errno + list string :=
  (fix go (cur rest : list string) {struct rest} : errno + list string :=
     match rest with
     | [] => inr cur
     | c :: rest' =>
         if negb (is_dir r cur) then
           match get r cur with inl e => inl e | inr _ => inl ENOTDIR end
         else if String.eqb c EmptyString || String.eqb c "." then go cur rest'
         else if String.eqb c ".." then go (removelast cur) rest'
         else
           match get r (cur ++ [c]) with
           | inl e => inl e
           | inr (ILink target) =>
               if negb follow && bool_decide (rest' = []) then inr (cur ++ [c])
               else
                 match links with
                 | O => inl ELOOP
                 | S links' =>
                     walk r links' follow
                       (if is_abs target then [] else cur)
                       (components target ++ rest')
                 end
           | inr _ => go (cur ++ [c]) rest'
           end
     end) cur rest.

Definition resolve (w : World) (follow : bool) (name : string) : errno + inode :=
  if String.eqb name EmptyString then inl ENOENT
  else
    match walk (root w) maxSymlinks follow
               (if is_abs name then [] else cwd w) (components name) with
    | inl e => inl e
    | inr p => get (root w) p
    end.

Inductive FileMode := ModeRegular | ModeSymlink | ModeDir.

(** [fs.DirEntry] *)
Record DirEntry := { Name : string; Mode : FileMode }.

Definition entry_of (e : string * inode) : DirEntry :=
  {| Name := e.1;
     Mode := match e.2 with
             | IFile _ _ => ModeRegular
             | ILink _ => ModeSymlink
             | IDir _ => ModeDir
             end |}.

Definition name_le (a b : DirEntry) : Prop := String.le (Name a) (Name b).

#[global] Instance name_le_dec : RelDecision name_le.
Proof. intros a b. unfold name_le. apply _. Defined.

(** [os.ReadDir]: the directory's entries sorted by filename. *)
Definition ReadDir (w : World) (name : string) : result (list DirEntry) :=
  match resolve w true name with
  | inl e => Err (PathError "open" name e)
  | inr (IDir es) => Ok (merge_sort name_le (entry_of <$> es))
  | inr _ => Err (PathError "readdirent" name ENOTDIR)
  end.

(** [os.ReadFile] *)
Definition ReadFile (w : World) (name : string) : result string :=
  match resolve w true name with
  | inl e => Err (PathError "open" name e)
  | inr (IFile _ data) => Ok data
  | inr _ => Err (PathError "read" name EISDIR)
  end.

(** [os.Open] gives a handle on the object; [ReadAll] is what [io.Copy]
    from that handle delivers. *)
Record File := { file_name : string; file_node : inode }.

Definition Open (w : World) (name : string) : result File :=
  match resolve w true name with
  | inl e => Err (PathError "open" name e)
  | inr t => Ok {| file_name := name; file_node := t |}
  end.

Definition ReadAll (f : File) : result string :=
  match file_node f with
  | IFile _ data => Ok data
  | _ => Err (PathError "read" (file_name f) EISDIR)
  end.

(** [os.Readlink] *)
Definition Readlink (w : World) (name : string) : result string :=
  match resolve w false name with
  | inl e => Err (PathError "readlink" name e)
  | inr (ILink target) => Ok target
  | inr _ => Err (PathError "readlink" name EINVAL)
  end.

(** [os.Lstat], returning the object itself. *)
Definition Lstat (w : World) (name : string) : result inode :=
  match resolve w false name with
  | inl e => Err (PathError "lstat" name e)
  | inr t => Ok t
  end.

End os.

(** ** Package [nar]: the Nix archive serialisation

    [zombiezen.com/go/nix/nar] is not part of the repository.  [DumpPath]
    is embedded from the NAR format it implements: every token is a
    length-prefixed string padded to 8 bytes, and the entries of a
    directory are written in the order of their names, whatever the order
    on disk. *)

Module nar.

Fixpoint le_bytes (n : nat) (x : Z) : list Z :=
  match n with
  | O => []
  | S n' => (x mod 256)%Z :: le_bytes n' (Z.shiftr x 8)
  end.

Definition str (s : string) : string :=
  let n := String.length s in
  string_of_bytes (le_bytes 8 (Z.of_nat n))
    +:+ s
    +:+ string_of_bytes (replicate ((8 - n mod 8) mod 8) 0%Z).

Definition entry_le (a b : string * string) : Prop := String.le a.1 b.1.

#[global] Instance entry_le_dec : RelDecision entry_le.
Proof. intros a b. unfold entry_le. apply _. Defined.

Definition entry (e : string * string) : string :=
  str "entry" +:+ str "(" +:+ str "name" +:+ str e.1
    +:+ str "node" +:+ e.2 +:+ str ")".

(** Modelled from the spec: [nar.DumpPath] belongs to the package
    [zombiezen.com/go/nix/nar], whose source is not in the repository.  The
    spec (4.1) asks for a deterministic serialisation of the whole tree
    (entry names, types, the executable bit, file contents) that does not
    depend on the order of the directory listing; this is the NAR format:
    a parenthesised record per object, the entries of a directory sorted
    by name. *)
Fixpoint node (t : inode) : string :=
  match t with
  | IFile x data =>
      str "(" +:+ str "type" +:+ str "regular"
        +:+ (if x then str "executable" +:+ str EmptyString else EmptyString)
        +:+ str "contents" +:+ str data +:+ str ")"
  | ILink target =>
      str "(" +:+ str "type" +:+ str "symlink"
        +:+ str "target" +:+ str target +:+ str ")"
  | IDir es =>
      let each :=
        (fix each (es : list (string * inode)) : list (string * string) :=
           match es with
           | [] => []
           | (n, t') :: es' => (n, node t') :: each es'
           end) es in
      str "(" +:+ str "type" +:+ str "directory"
        +:+ String.concat EmptyString (entry <$> merge_sort entry_le each)
        +:+ str ")"
  end.

(** The entries of a directory with their serialisations, in on-disk
    order. *)
Definition named (es : list (string * inode)) : list (string * string) :=
  (λ e, (e.1, node e.2)) <$> es.

Definition archive (t : inode) : string := str "nix-archive-1" +:+ node t.

(** [nar.DumpPath(w, path)]: the bytes written to [w].  The object at
    [path] itself is not followed when it is a symbolic link. *)
Definition DumpPath (w : World) (path : string) : result string :=
  t ← os.Lstat w path; Ok (archive t).

End nar.

(** ** The types of the other packages the program uses *)

Module sbom.
(** [sbom.Purpose], restricted to the values the program produces. *)
Inductive Purpose :=
| Purpose_UNKNOWN_PURPOSE
| Purpose_EXECUTABLE
| Purpose_CONTAINER.
End sbom.

Module imgv1.
(** [imgv1.Descriptor] and [imgv1.Manifest]; [Digest] is a string type. *)
Record Descriptor := {
  MediaType : string;
  Digest : string;
  Size : Z
}.

Record Manifest := {
  SchemaVersion : Z;
  ManifestMediaType : string;
  Config : Descriptor;
  Layers : list Descriptor
}.
End imgv1.

Module gographviz.
(** A node of the graph: its name as written in the DOT source, and its
    attribute map, which the program writes with plain map assignments. *)
Record Node := {
  Name : string;
  Attrs : gmap string string
}.

Record Graph := {
  Nodes : list Node;
  Edges : list (string * string)
}.

Definition NewGraph : Graph := {| Nodes := []; Edges := [] |}.
End gographviz.

(** ** The program *)

(** App represents the application *)
Record App := {
  Name : string;
  Version : string;
  AppType : sbom.Purpose;
  ResultHash : string;
  ResultDigest : string;
  BinaryHash : string
}.

Definition set_Name (a : App) (v : string) : App :=
  {| Name := v; Version := Version a; AppType := AppType a;
     ResultHash := ResultHash a; ResultDigest := ResultDigest a;
     BinaryHash := BinaryHash a |}.

Definition set_Version (a : App) (v : string) : App :=
  {| Name := Name a; Version := v; AppType := AppType a;
     ResultHash := ResultHash a; ResultDigest := ResultDigest a;
     BinaryHash := BinaryHash a |}.

Definition set_ResultHash (a : App) (v : string) : App :=
  {| Name := Name a; Version := Version a; AppType := AppType a;
     ResultHash := v; ResultDigest := ResultDigest a;
     BinaryHash := BinaryHash a |}.

Definition set_BinaryHash (a : App) (v : string) : App :=
  {| Name := Name a; Version := Version a; AppType := AppType a;
     ResultHash := ResultHash a; ResultDigest := ResultDigest a;
     BinaryHash := v |}.

(** GetNarHashFromPath returns the sha256 hash of the nar *)
Definition GetNarHashFromPath (w : World) (path : string) : result string :=
  match nar.DumpPath w path with
  | Err err => Err err
  | Ok written => Ok (nixbase32.EncodeToString (sha256.Sum256 written))
  end.

Definition findResultBinary (w : World) (output symlink : string) : result string :=
  match os.ReadDir w (output +:+ symlink +:+ "/bin") with
  | Err err => Err err
  | Ok files =>
      match files with
      | file :: _ => Ok (os.Name file)
      | [] => Err (errorString "no result binary found")
      end
  end.

(** fileSHA256 returns the sha256 hash of the file *)
Definition fileSHA256 (w : World) (filePath : string) : result string :=
  match os.Open w filePath with
  | Err err => Err err
  | Ok file =>
      match os.ReadAll file with
      | Err err => Err err
      | Ok content => Ok (hex.EncodeToString (sha256.Sum256 content))
      end
  end.

(** ** [CleanNameFromGraph] *)

Definition dquote : string := String (ascii_of_nat 34) EmptyString.
Definition backslash : string := String (ascii_of_nat 92) EmptyString.

(** CleanNameFromGraph removes leading and trailing double quotes and
    escape characters. *)
Definition CleanNameFromGraph (s : string) : string :=
  let s := strings.Trim s dquote in
  let s := strings.ReplaceAll s (backslash +:+ dquote) dquote in
  s.

Fixpoint findAppType (fs : list os.DirEntry) : sbom.Purpose :=
  match fs with
  | [] => sbom.Purpose_UNKNOWN_PURPOSE
  | f :: rest =>
      if String.eqb (os.Name f) "bin" then sbom.Purpose_EXECUTABLE
      else if String.eqb (os.Name f) "manifest.json" then sbom.Purpose_CONTAINER
      else findAppType rest
  end.

Definition parseAppDetails (w : World) (path : string) : result App :=
  match os.ReadDir w path with
  | Err err => Err err
  | Ok fs =>
      let purpose := findAppType fs in
      let path := strings.TrimPrefix path "/nix/store/" in
      let parts := strings.Split path "-" in
      if (List.length parts <? 3)%nat
      then Err (errorString ("invalid path: " +:+ path))
      else Ok {| Name := EmptyString;
                 Version := nth (List.length parts - 1) parts EmptyString;
                 AppType := purpose;
                 ResultHash := EmptyString;
                 ResultDigest := nth 0 parts EmptyString;
                 BinaryHash := EmptyString |}
  end.

(** GetAppDetails checks if the symlink exists *)
Definition GetAppDetails (w : World) (output symlink : string) : result App :=
  match os.Readlink w (output +:+ symlink) with
  | Err err => Err (errorString ("failed to read symlink: " +:+ Error err))
  | Ok target =>
      match GetNarHashFromPath w target with
      | Err err => Err (errorString ("failed to get nar hash: " +:+ Error err))
      | Ok hash =>
          match parseAppDetails w target with
          | Err err => Err (errorString ("failed to parse app details: " +:+ Error err))
          | Ok app => Ok (set_ResultHash app hash)
          end
      end
  end.

(** The goroutine body of [addNarHashToGraph] run to its end on one node:
    what the node's attribute map holds once the goroutine has finished. *)
Definition set_attr (n : gographviz.Node) (k v : string) : gographviz.Node :=
  {| gographviz.Name := gographviz.Name n;
     gographviz.Attrs := <[k := v]> (gographviz.Attrs n) |}.

Definition node_path (n : gographviz.Node) : string :=
  CleanNameFromGraph (gographviz.Name n).

Definition enrich_node (w : World) (node : gographviz.Node) : gographviz.Node :=
  let path := node_path node in
  match GetNarHashFromPath w ("/nix/store/" +:+ path) with
  | Err _ => node
  | Ok hash =>
      let node := set_attr node "hash" hash in
      match parseAppDetails w ("/nix/store/" +:+ path) with
      | Err _ => node
      | Ok app =>
          let node := set_attr node "name" (Name app) in
          set_attr node "version" (Version app)
      end
  end.

(** ** [addNarHashToGraph]: goroutines and the wait group

    The nodes of the graph are shared between the caller and the goroutines
    it starts; they are kept in a store indexed like [graph.Nodes.Nodes].
    One step of the system is one step of the caller or of one goroutine,
    chosen freely. *)

Module conc.

(** Where the caller stands. *)
Inductive main_pc :=
| Loop (i : nat)      (** at the head of the [for], next node is [i] *)
| Go (i : nat)        (** after [wg.Add(1)], about to start the goroutine *)
| Wait                (** at [wg.Wait()] *)
| Returned.

(** Where a goroutine stands. *)
Inductive task_pc :=
| Hashing                         (** before [GetNarHashFromPath] *)
| StoreHash (path hash : string)  (** before [node.Attrs["hash"] = hash] *)
| Parsing (path : string)         (** before [parseAppDetails] *)
| StoreName (app : App)           (** before [node.Attrs["name"] = app.Name] *)
| StoreVersion (app : App)        (** before [node.Attrs["version"] = app.Version] *)
| Deferred                        (** before the deferred [wg.Done()] *)
| Exited.

Record task := { target : nat; pc : task_pc }.

Record state := {
  main : main_pc;
  nodes : list gographviz.Node;
  tasks : list task;
  wg : Z
}.

Definition init (g : gographviz.Graph) : state :=
  {| main := Loop 0; nodes := gographviz.Nodes g; tasks := []; wg := 0 |}.

Definition set_main (s : state) (m : main_pc) : state :=
  {| main := m; nodes := nodes s; tasks := tasks s; wg := wg s |}.

(** The effect of goroutine [k] moving to [p], after updating its node
    with [f] and the counter by [d]. *)
Definition task_moves (s : state) (k : nat) (t : task) (p : task_pc)
    (f : gographviz.Node → gographviz.Node) (d : Z) : state :=
  {| main := main s;
     nodes := alter f (target t) (nodes s);
     tasks := <[k := {| target := target t; pc := p |}]> (tasks s);
     wg := (wg s + d)%Z |}.

Inductive actor := Main | Task (k : nat).

Inductive step (w : World) : state → actor → state → Prop :=
| step_add s i :
    main s = Loop i → (i < List.length (nodes s))%nat →
    step w s Main
      {| main := Go i; nodes := nodes s; tasks := tasks s; wg := (wg s + 1)%Z |}
| step_go s i :
    main s = Go i →
    step w s Main
      {| main := Loop (S i); nodes := nodes s;
         tasks := tasks s ++ [{| target := i; pc := Hashing |}]; wg := wg s |}
| step_loop_end s i :
    main s = Loop i → (List.length (nodes s) ≤ i)%nat →
    step w s Main (set_main s Wait)
| step_wait s :
    main s = Wait → wg s = 0%Z →
    step w s Main (set_main s Returned)
| step_hash_ok s k t node hash :
    tasks s !! k = Some t → pc t = Hashing →
    nodes s !! target t = Some node →
    GetNarHashFromPath w ("/nix/store/" +:+ node_path node) = Ok hash →
    step w s (Task k) (task_moves s k t (StoreHash (node_path node) hash) id 0)
| step_hash_err s k t node err :
    tasks s !! k = Some t → pc t = Hashing →
    nodes s !! target t = Some node →
    GetNarHashFromPath w ("/nix/store/" +:+ node_path node) = Err err →
    step w s (Task k) (task_moves s k t Deferred id 0)
| step_store_hash s k t path hash :
    tasks s !! k = Some t → pc t = StoreHash path hash →
    step w s (Task k)
      (task_moves s k t (Parsing path) (λ n, set_attr n "hash" hash) 0)
| step_parse_ok s k t path app :
    tasks s !! k = Some t → pc t = Parsing path →
    parseAppDetails w ("/nix/store/" +:+ path) = Ok app →
    step w s (Task k) (task_moves s k t (StoreName app) id 0)
| step_parse_err s k t path err :
    tasks s !! k = Some t → pc t = Parsing path →
    parseAppDetails w ("/nix/store/" +:+ path) = Err err →
    step w s (Task k) (task_moves s k t Deferred id 0)
| step_store_name s k t app :
    tasks s !! k = Some t → pc t = StoreName app →
    step w s (Task k)
      (task_moves s k t (StoreVersion app) (λ n, set_attr n "name" (Name app)) 0)
| step_store_version s k t app :
    tasks s !! k = Some t → pc t = StoreVersion app →
    step w s (Task k)
      (task_moves s k t Deferred (λ n, set_attr n "version" (Version app)) 0)
| step_done s k t :
    tasks s !! k = Some t → pc t = Deferred →
    step w s (Task k) (task_moves s k t Exited id (-1)).

(** Executions, with the actors in the order in which they moved. *)
Inductive steps (w : World) : state → list actor → state → Prop :=
| steps_refl s : steps w s [] s
| steps_snoc s tr s' a s'' :
    steps w s tr s' → step w s' a s'' → steps w s (tr ++ [a]) s''.

(** *** What holds in every reachable state *)

Definition alive (p : task_pc) : bool :=
  match p with Exited => false | _ => true end.

(** The number of goroutines that have not yet called [wg.Done()]. *)
Definition live (ts : list task) : nat :=
  sum_list_with (λ t, if alive (pc t) then 1 else 0)%nat ts.

(** The node of a goroutine at [p] is the original node [n0] with the
    writes made before [p]. *)
Definition progress (w : World) (n0 : gographviz.Node) (p : task_pc)
    (n : gographviz.Node) : Prop :=
  let path := "/nix/store/" +:+ node_path n0 in
  match p with
  | Hashing => n = n0
  | StoreHash path' hash =>
      n = n0 ∧ path' = node_path n0 ∧ GetNarHashFromPath w path = Ok hash
  | Parsing path' =>
      ∃ hash, n = set_attr n0 "hash" hash ∧ path' = node_path n0 ∧
              GetNarHashFromPath w path = Ok hash
  | StoreName app =>
      ∃ hash, n = set_attr n0 "hash" hash ∧
              GetNarHashFromPath w path = Ok hash ∧
              parseAppDetails w path = Ok app
  | StoreVersion app =>
      ∃ hash, n = set_attr (set_attr n0 "hash" hash) "name" (Name app) ∧
              GetNarHashFromPath w path = Ok hash ∧
              parseAppDetails w path = Ok app
  | Deferred | Exited => n = enrich_node w n0
  end.

Record inv (w : World) (ns0 : list gographviz.Node) (s : state) : Prop := {
  inv_length : List.length (nodes s) = List.length ns0;
  inv_targets : target <$> tasks s = seq 0 (List.length (tasks s));
  inv_started : ∀ k t n0 n,
    tasks s !! k = Some t → ns0 !! k = Some n0 → nodes s !! k = Some n →
    progress w n0 (pc t) n;
  inv_not_started : ∀ k,
    (List.length (tasks s) ≤ k)%nat → nodes s !! k = ns0 !! k;
  inv_wg :
    wg s = (Z.of_nat (live (tasks s))
            + match main s with Go _ => 1 | _ => 0 end)%Z;
  inv_main :
    match main s with
    | Loop i => List.length (tasks s) = i ∧ (i ≤ List.length ns0)%nat
    | Go i => List.length (tasks s) = i ∧ (i < List.length ns0)%nat
    | Wait => List.length (tasks s) = List.length ns0
    | Returned => List.length (tasks s) = List.length ns0 ∧ live (tasks s) = O
    end
}.

(** *** A bound on the length of executions *)

Definition task_measure (p : task_pc) : nat :=
  match p with
  | Hashing => 6
  | StoreHash _ _ => 5
  | Parsing _ => 4
  | StoreName _ => 3
  | StoreVersion _ => 2
  | Deferred => 1
  | Exited => 0
  end.

Definition measure (s : state) : nat :=
  let n := List.length (nodes s) in
  match main s with
  | Loop i => 8 * (n - i) + 2
  | Go i => 8 * (n - i) + 1
  | Wait => 1
  | Returned => 0
  end + sum_list_with (λ t, task_measure (pc t)) (tasks s).

(** The call returns on every schedule: from [s], whatever moves next,
    the caller gets past [wg.Wait()] after finitely many steps. *)
Inductive returns (w : World) : state → Prop :=
| returns_now s : main s = Returned → returns w s
| returns_later s :
    (∃ a s', step w s a s') →
    (∀ a s', step w s a s' → returns w s') →
    returns w s.

(** *** Running a schedule

    The step of a given actor, when it has one, and the state reached by
    letting the actors of a schedule move in turn. *)

Definition step_of (w : World) (s : state) (a : actor) : option state :=
  match a with
  | Main =>
      match main s with
      | Loop i =>
          if decide (i < List.length (nodes s))%nat
          then Some {| main := Go i; nodes := nodes s; tasks := tasks s;
                       wg := (wg s + 1)%Z |}
          else Some (set_main s Wait)
      | Go i =>
          Some {| main := Loop (S i); nodes := nodes s;
                  tasks := tasks s ++ [{| target := i; pc := Hashing |}];
                  wg := wg s |}
      | Wait => if decide (wg s = 0%Z) then Some (set_main s Returned) else None
      | Returned => None
      end
  | Task k =>
      match tasks s !! k with
      | None => None
      | Some t =>
          match pc t with
          | Hashing =>
              match nodes s !! target t with
              | None => None
              | Some node =>
                  match GetNarHashFromPath w ("/nix/store/" +:+ node_path node) with
                  | Ok hash =>
                      Some (task_moves s k t (StoreHash (node_path node) hash) id 0)
                  | Err _ => Some (task_moves s k t Deferred id 0)
                  end
              end
          | StoreHash path hash =>
              Some (task_moves s k t (Parsing path)
                      (λ n, set_attr n "hash" hash) 0)
          | Parsing path =>
              match parseAppDetails w ("/nix/store/" +:+ path) with
              | Ok app => Some (task_moves s k t (StoreName app) id 0)
              | Err _ => Some (task_moves s k t Deferred id 0)
              end
          | StoreName app =>
              Some (task_moves s k t (StoreVersion app)
                      (λ n, set_attr n "name" (Name app)) 0)
          | StoreVersion app =>
              Some (task_moves s k t Deferred
                      (λ n, set_attr n "version" (Version app)) 0)
          | Deferred => Some (task_moves s k t Exited id (-1))
          | Exited => None
          end
      end
  end.

Fixpoint run_schedule (w : World) (s : state) (sched : list actor) : option state :=
  match sched with
  | [] => Some s
  | a :: sched' =>
      match step_of w s a with
      | Some s' => run_schedule w s' sched'
      | None => None
      end
  end.

(** The goroutines in the order in which they reached [Exited]. *)
Fixpoint exit_order (w : World) (s : state) (sched : list actor) : list nat :=
  match sched with
  | [] => []
  | a :: sched' =>
      match step_of w s a with
      | Some s' =>
          match a with
          | Task k =>
              if bool_decide (live (tasks s') < live (tasks s))%nat
              then k :: exit_order w s' sched'
              else exit_order w s' sched'
          | Main => exit_order w s' sched'
          end
      | None => []
      end
  end.

End conc.

(** [addNarHashToGraph] as a relation between the graph passed in and the
    graph the caller holds when the call has returned. *)
Definition addNarHashToGraph_runs (w : World) (g g' : gographviz.Graph) : Prop :=
  ∃ tr s, conc.steps w (conc.init g) tr s ∧ conc.main s = conc.Returned ∧
          g' = {| gographviz.Nodes := conc.nodes s;
                  gographviz.Edges := gographviz.Edges g |}.

(** The graph every execution ends with (see [addNarHashToGraph_runs_iff]). *)
Definition addNarHashToGraph (w : World) (g : gographviz.Graph) : gographviz.Graph :=
  {| gographviz.Nodes := enrich_node w <$> gographviz.Nodes g;
     gographviz.Edges := gographviz.Edges g |}.

Section program.

(** The parsers the program calls: [json.Unmarshal] into an
    [imgv1.Manifest], and gographviz's [ParseString] and [Analyse]. *)
Variable json_Unmarshal : string → result imgv1.Manifest.
Variable Ast : Type.
Variable ParseString : string → result Ast.
Variable Analyse : Ast → gographviz.Graph → result gographviz.Graph.

Fixpoint artifactHash_loop (w : World) (output symlink : string)
    (files : list os.DirEntry) : result string :=
  match files with
  | [] => Ok EmptyString
  | file :: rest =>
      if String.eqb (os.Name file) "bin" then
        match findResultBinary w output symlink with
        | Err err => Err err
        | Ok binName =>
            match fileSHA256 w (output +:+ symlink +:+ "/bin/" +:+ binName) with
            | Err err => Err err
            | Ok hash => Ok hash
            end
        end
      else if String.eqb (os.Name file) "manifest.json" then
        match os.ReadFile w (output +:+ symlink +:+ "/manifest.json") with
        | Err err => Err err
        | Ok fbytes =>
            match json_Unmarshal fbytes with
            | Err err => Err err
            | Ok manifest =>
                Ok (strings.TrimPrefix
                      (imgv1.Digest (imgv1.Config manifest)) "sha256:")
            end
        end
      else artifactHash_loop w output symlink rest
  end.

Definition artifactHash (w : World) (output symlink : string) : result string :=
  match os.ReadDir w (output +:+ symlink) with
  | Err err => Err err
  | Ok files => artifactHash_loop w output symlink files
  end.

(** GetRuntimeClosureGraph returns the runtime closure graph for the
    project *)
Definition GetRuntimeClosureGraph (w : World) (appName output symlink : string)
  : result (App * gographviz.Graph) :=
  match GetAppDetails w output symlink with
  | Err err => Err err
  | Ok app =>
      let app := set_Name app appName in
      let app := set_Version app "0.0.0" in
      let cmd := run w "nix-store" ["-q"; "--graph"; output +:+ symlink] in
      if negb (ExitOk cmd)
      then Err (errorString ("failed with " +:+ Stderr cmd))
      else
        match ParseString (Stdout cmd) with
        | Err err => Err (errorString ("failed to parse graph: " +:+ Error err))
        | Ok graphAst =>
            match Analyse graphAst gographviz.NewGraph with
            | Err err =>
                Err (errorString ("failed to analyse graph: " +:+ Error err))
            | Ok graph =>
                let graph := addNarHashToGraph w graph in
                match artifactHash w output symlink with
                | Err err =>
                    Err (errorString ("failed to get artifact hash: " +:+ Error err))
                | Ok hash => Ok (set_BinaryHash app hash, graph)
                end
            end
        end
  end.

End program.

(** ** A concrete store

    A small store, an output directory with symbolic links into it, and the
    graph [nix-store -q --graph] reports for it.  The parsers are
    represented on this input only. *)

Definition quoted (s : string) : string := dquote +:+ s +:+ dquote.

Definition manifest_text : string :=
  "{" +:+ quoted "config" +:+ ":{" +:+ quoted "digest" +:+ ":"
      +:+ quoted "sha256:deadbeef" +:+ "}}".

Definition mytool_bytes : string := "#!/bin/sh" +:+ String (ascii_of_nat 10) "exit 0".

Definition store_mytool : inode :=
  IDir [("share", IDir []); ("bin", IDir [("mytool", IFile true mytool_bytes)])].

(** The same tree as [store_mytool], created in another order. *)
Definition store_mytool_reordered : inode :=
  IDir [("bin", IDir [("mytool", IFile true mytool_bytes)]); ("share", IDir [])].

Definition store_image : inode :=
  IDir [("manifest.json", IFile false manifest_text);
        ("layer.tar", IFile false "layer")].

Definition store_docs : inode :=
  IDir [("README", IFile false "read me")].

Definition demo_root : inode :=
  IDir [("nix", IDir [("store", IDir [
           ("xyz123-mytool-1.2.3", store_mytool);
           ("r9-mytool-1.2.3", store_mytool_reordered);
           ("abc-img-2.0", store_image);
           ("q7-docs-0.1", store_docs);
           ("k2-both-3", IDir [("manifest.json", IFile false manifest_text);
                               ("bin", IDir [("tool", IFile true "x")])]) ])]);
        ("out", IDir [("result", ILink "/nix/store/xyz123-mytool-1.2.3");
                      ("image", ILink "/nix/store/abc-img-2.0");
                      ("docs", ILink "/nix/store/q7-docs-0.1")])].

Definition demo_node (name : string) : gographviz.Node :=
  {| gographviz.Name := quoted name; gographviz.Attrs := {[ "shape" := "box" ]} |}.

Definition demo_graph : gographviz.Graph :=
  {| gographviz.Nodes :=
       [demo_node "xyz123-mytool-1.2.3"; demo_node "gone-pkg-1.0";
        demo_node "abc-img-2.0"];
     gographviz.Edges := [(quoted "abc-img-2.0", quoted "xyz123-mytool-1.2.3")] |}.

Definition demo_world : World :=
  {| root := demo_root;
     cwd := ["out"];
     run := λ name args,
       if String.eqb name "nix-store"
       then {| Stdout := "digraph G {}"; Stderr := EmptyString; ExitOk := true |}
       else {| Stdout := EmptyString; Stderr := "not found"; ExitOk := false |} |}.

Definition demo_Unmarshal (data : string) : result imgv1.Manifest :=
  if String.eqb data manifest_text
  then Ok {| imgv1.SchemaVersion := 0;
             imgv1.ManifestMediaType := EmptyString;
             imgv1.Config := {| imgv1.MediaType := EmptyString;
                                imgv1.Digest := "sha256:deadbeef";
                                imgv1.Size := 0 |};
             imgv1.Layers := [] |}
  else Err (errorString "unexpected end of JSON input").

Definition demo_ParseString (s : string) : result string := Ok s.

Definition demo_Analyse (ast : string) (g : gographviz.Graph)
  : result gographviz.Graph := Ok demo_graph.

(** ** Vocabulary of the statements *)

(** The store path a node stands for. *)
Definition store_path (n : gographviz.Node) : string :=
  "/nix/store/" +:+ node_path n.

(** The hyphen-separated segments [parseAppDetails] counts. *)
Definition segments (path : string) : list string :=
  strings.Split (strings.TrimPrefix path "/nix/store/") "-".

(** Nothing exists at the path. *)
Definition missing (w : World) (path : string) : Prop :=
  os.resolve w false path = inl ENOENT.

(** The path can be archived and listed, and its name has the three
    segments of a store path. *)
Definition readable_well_formed (w : World) (path : string) : Prop :=
  (∃ t, os.resolve w false path = inr t) ∧
  (∃ es, os.resolve w true path = inr (IDir es)) ∧
  (3 ≤ List.length (segments path))%nat.

(** The attributes [addNarHashToGraph] writes. *)
Definition enrichment_keys : list string := ["hash"; "name"; "version"].

(** Two schedules for the three nodes of [demo_graph].  In the first the
    goroutines are all started and then run to their end one after the
    other, in the order of the nodes.  In the second the goroutine of the
    first node starts hashing while the caller is still in its loop, and
    the goroutines finish in the opposite order.  The goroutine of the
    second node, whose path is missing, has two steps; the others six. *)
Definition moves (a : conc.actor) (n : nat) : list conc.actor := replicate n a.

Definition schedule_in_order : list conc.actor :=
  moves conc.Main 7
    ++ moves (conc.Task 0) 6 ++ moves (conc.Task 1) 2 ++ moves (conc.Task 2) 6
    ++ [conc.Main].

Definition schedule_reversed : list conc.actor :=
  moves conc.Main 2 ++ moves (conc.Task 0) 3 ++ moves conc.Main 5
    ++ moves (conc.Task 2) 6 ++ moves (conc.Task 1) 2 ++ moves (conc.Task 0) 3
    ++ [conc.Main].

(** A name that is a single, ordinary path component. *)
Definition plain_name (c : string) : Prop :=
  c ≠ EmptyString ∧ c ≠ "." ∧ c ≠ ".." ∧ os.components c = [c].

Definition is_link (t : inode) : bool :=
  match t with ILink _ => true | _ => false end.

(** The path wrapped in escaped quotes: backslash, quote, the path,
    backslash, quote. *)
Definition escaped_label : string :=
  backslash +:+ dquote +:+ "/nix/store/abc" +:+ backslash +:+ dquote.

Definition invalid_path_error (e : error) : Prop :=
  ∃ named, e = errorString ("invalid path: " +:+ named).

Definition mytool_store_path : string := "/nix/store/xyz123-mytool-1.2.3".

(** What [parseAppDetails] returns on the store path holding both markers. *)
Definition both_app : App :=
  {| Name := EmptyString; Version := "3";
     AppType := sbom.Purpose_EXECUTABLE; ResultHash := EmptyString;
     ResultDigest := "k2"; BinaryHash := EmptyString |}.

(** Two trees with the same logical structure and contents: the same
    file, the same link, or two directories, with no name used twice, that
    hold the same entries under the same names in any order. *)
Inductive same_tree : inode → inode → Prop :=
| same_file x data : same_tree (IFile x data) (IFile x data)
| same_link target : same_tree (ILink target) (ILink target)
| same_dir es1 es1' es2 :
    NoDup es1.*1 → es1 ≡ₚ es1' → same_entries es1' es2 →
    same_tree (IDir es1) (IDir es2)
with same_entries : list (string * inode) → list (string * inode) → Prop :=
| same_nil : same_entries [] []
| same_cons n t1 t2 l1 l2 :
    same_tree t1 t2 → same_entries l1 l2 →
    same_entries ((n, t1) :: l1) ((n, t2) :: l2).

Scheme same_tree_mut := Minimality for same_tree Sort Prop
  with same_entries_mut := Minimality for same_entries Sort Prop.

(** ** Vocabulary of the further properties *)

Definition quote_char : ascii := ascii_of_nat 34.

(** The string holds no double quote. *)
Definition quote_free (s : string) : Prop := strings.mem quote_char s = false.

(** The string holds no hyphen. *)
Definition hyphen_free (s : string) : Prop := strings.mem "-"%char s = false.

(** A second store, with the output shapes and store paths the first one
    lacks: an empty [bin] next to a manifest, a [bin] with several entries,
    a [bin] whose first entry is a directory, a store path that is a file,
    and one whose name has two segments only. *)
Definition demo_root2 : inode :=
  IDir [("nix", IDir [("store", IDir [
           ("e1-emptybin-1.0",
              IDir [("bin", IDir []);
                    ("manifest.json", IFile false manifest_text)]);
           ("f2-tools-2.1",
              IDir [("bin", IDir [("zz", IFile true "z"); ("aa", IFile true "a");
                                  ("lib", IDir [])])]);
           ("g3-dirfirst-0.9",
              IDir [("bin", IDir [("b", IFile true "b"); ("a.d", IDir [])])]);
           ("h4-patch", IFile false "diff");
           ("i5-lone", IDir []);
           ("j6-img-3", IDir [("manifest.json", IFile false manifest_text)]) ])]);
        ("out", IDir [("tools", ILink "/nix/store/f2-tools-2.1");
                      ("lone", ILink "/nix/store/i5-lone");
                      ("empty", ILink "/nix/store/e1-emptybin-1.0")])].

Definition demo_world2 : World :=
  {| root := demo_root2;
     cwd := [];
     run := λ name args,
       {| Stdout := "digraph G {}"; Stderr := EmptyString; ExitOk := true |} |}.

Definition demo_graph2 : gographviz.Graph :=
  {| gographviz.Nodes :=
       [demo_node "h4-patch"; demo_node "i5-lone"; demo_node "f2-tools-2.1"];
     gographviz.Edges := [(quoted "f2-tools-2.1", quoted "i5-lone")] |}.

(** An unmarshalling that yields the given config digest, and one that
    fails. *)
Definition Unmarshal_digest (digest : string) (data : string)
  : result imgv1.Manifest :=
  Ok {| imgv1.SchemaVersion := 2;
        imgv1.ManifestMediaType := EmptyString;
        imgv1.Config := {| imgv1.MediaType := EmptyString;
                           imgv1.Digest := digest;
                           imgv1.Size := 0 |};
        imgv1.Layers := [] |}.

Definition Unmarshal_fails (data : string) : result imgv1.Manifest :=
  Err (errorString "unexpected end of JSON input").

Definition demo_Analyse2 (ast : string) (g : gographviz.Graph)
  : result gographviz.Graph := Ok demo_graph2.

(** * Properties *)

(** ** Test vectors for the embedded packages *)

Example sha256_abc :
  hex.EncodeToString (sha256.Sum256 "abc")
  = "ba7816bf8f01cfea414140de5dae2223b00361a396177a9cb410ff61f20015ad".
Proof. vm_compute. reflexivity. Qed.

Example sha256_two_blocks :
  hex.EncodeToString
    (sha256.Sum256 "abcdbcdecdefdefgefghfghighijhijkijkljklmklmnlmnomnopnopq")
  = "248d6a61d20638b8e5c026930c3e6039a33ce45964ff2167f6ecedd419db06c1".
Proof. vm_compute. reflexivity. Qed.

Example nixbase32_empty_sha256 :
  nixbase32.EncodeToString (sha256.Sum256 EmptyString)
  = "0mdqa9w1p6cmli6976v4wi0sw9r4p5prkj7lzfd1877wk11c9c73".
Proof. vm_compute. reflexivity. Qed.

Example split_store_name :
  strings.Split "xyz123-mytool-1.2.3" "-" = ["xyz123"; "mytool"; "1.2.3"].
Proof. reflexivity. Qed.

Example readdir_sorted :
  os.Name <$> default [] (match os.ReadDir demo_world "/out/result" with
                          | Ok fs => Some fs
                          | Err _ => None
                          end)
  = ["bin"; "share"].
Proof. reflexivity. Qed.

(** ** Directory listings *)

#[global] Instance name_le_total : Total os.name_le.
Proof. intros a b. unfold os.name_le. apply (total String.le). Qed.

#[global] Instance name_le_trans : Transitive os.name_le.
Proof. intros a b c. unfold os.name_le. apply (transitivity (R:=String.le)). Qed.

Lemma ReadDir_dir w p es :
  os.resolve w true p = inr (IDir es) →
  os.ReadDir w p = Ok (merge_sort os.name_le (os.entry_of <$> es)).
Proof. intros H. unfold os.ReadDir. by rewrite H. Qed.

Lemma ReadDir_inv w p fs :
  os.ReadDir w p = Ok fs →
  ∃ es, os.resolve w true p = inr (IDir es) ∧
        fs = merge_sort os.name_le (os.entry_of <$> es).
Proof.
  unfold os.ReadDir. destruct (os.resolve w true p) as [e|[x d|t|es]]; try done.
  intros [= <-]. by exists es.
Qed.

Lemma sorted_names_elem es n :
  n ∈ os.Name <$> merge_sort os.name_le (os.entry_of <$> es) ↔ n ∈ es.*1.
Proof.
  rewrite merge_sort_Permutation, <-list_fmap_compose.
  by apply reflexive_eq.
Qed.

Lemma ReadDir_sorted w p fs :
  os.ReadDir w p = Ok fs → StronglySorted os.name_le fs.
Proof.
  intros (es & _ & ->)%ReadDir_inv.
  apply StronglySorted_merge_sort; apply _.
Qed.

(** ** [findAppType] *)

Lemma findAppType_bin fs :
  StronglySorted os.name_le fs → "bin" ∈ os.Name <$> fs →
  findAppType fs = sbom.Purpose_EXECUTABLE.
Proof.
  induction 1 as [|f fs Hs IH Hall]; simpl; intros Hin.
  - by apply elem_of_nil in Hin.
  - destruct (String.eqb_spec (os.Name f) "bin") as [|Hnb]; [done|].
    apply elem_of_cons in Hin as [Heq|Hin]; [congruence|].
    destruct (String.eqb_spec (os.Name f) "manifest.json") as [Hm|_]; [|auto].
    apply list_elem_of_fmap in Hin as (f' & Hf' & Hin).
    rewrite Forall_forall in Hall. specialize (Hall f' Hin).
    unfold os.name_le in Hall. rewrite Hm, <-Hf' in Hall. done.
Qed.

Lemma findAppType_manifest fs :
  "bin" ∉ os.Name <$> fs → "manifest.json" ∈ os.Name <$> fs →
  findAppType fs = sbom.Purpose_CONTAINER.
Proof.
  induction fs as [|f fs IH]; simpl; intros Hnb Hin.
  - by apply elem_of_nil in Hin.
  - apply not_elem_of_cons in Hnb as [Hne Hnb].
    destruct (String.eqb_spec (os.Name f) "bin") as [|_]; [congruence|].
    destruct (String.eqb_spec (os.Name f) "manifest.json") as [|Hnm]; [done|].
    apply elem_of_cons in Hin as [Heq|Hin]; [congruence|auto].
Qed.

Lemma findAppType_unknown fs :
  "bin" ∉ os.Name <$> fs → "manifest.json" ∉ os.Name <$> fs →
  findAppType fs = sbom.Purpose_UNKNOWN_PURPOSE.
Proof.
  induction fs as [|f fs IH]; simpl; intros Hnb Hnm; [done|].
  apply not_elem_of_cons in Hnb as [? ?], Hnm as [? ?].
  destruct (String.eqb_spec (os.Name f) "bin"); [congruence|].
  destruct (String.eqb_spec (os.Name f) "manifest.json"); [congruence|auto].
Qed.

(** ** [parseAppDetails] *)

Lemma parseAppDetails_inv w path app :
  parseAppDetails w path = Ok app →
  ∃ fs, os.ReadDir w path = Ok fs ∧
        (3 ≤ List.length (strings.Split (strings.TrimPrefix path "/nix/store/") "-"))%nat ∧
        Name app = EmptyString ∧
        AppType app = findAppType fs ∧
        Version app =
          (let parts := strings.Split (strings.TrimPrefix path "/nix/store/") "-" in
           nth (List.length parts - 1) parts EmptyString) ∧
        ResultDigest app =
          nth 0 (strings.Split (strings.TrimPrefix path "/nix/store/") "-") EmptyString.
Proof.
  unfold parseAppDetails.
  destruct (os.ReadDir w path) as [fs|e]; [|done].
  destruct (Nat.ltb_spec
    (List.length (strings.Split (strings.TrimPrefix path "/nix/store/") "-")) 3);
    [done|].
  intros [= <-]. exists fs. by repeat split.
Qed.

(** C5. Whenever [parseAppDetails] succeeds on a path that resolves to a
    directory with entries [es]: an entry named [bin] makes the type
    Executable (also when [manifest.json] is present as well); an entry
    named [manifest.json] and none named [bin] makes it Container; neither
    makes it Unknown. *)
Theorem C5_app_type_classification w path app es :
  parseAppDetails w path = Ok app →
  os.resolve w true path = inr (IDir es) →
  ("bin" ∈ es.*1 → AppType app = sbom.Purpose_EXECUTABLE) ∧
  ("manifest.json" ∈ es.*1 → "bin" ∉ es.*1 → AppType app = sbom.Purpose_CONTAINER) ∧
  ("bin" ∉ es.*1 → "manifest.json" ∉ es.*1 →
     AppType app = sbom.Purpose_UNKNOWN_PURPOSE) ∧
  ("bin" ∈ es.*1 → "manifest.json" ∈ es.*1 → AppType app = sbom.Purpose_EXECUTABLE).
Proof.
  intros (fs & Hfs & _ & _ & -> & _)%parseAppDetails_inv Hdir.
  pose proof (ReadDir_sorted _ _ _ Hfs) as Hsorted.
  rewrite (ReadDir_dir _ _ _ Hdir) in Hfs. injection Hfs as <-.
  repeat split.
  - intros Hb. apply findAppType_bin; [done|]. by apply sorted_names_elem.
  - intros Hm Hb. apply findAppType_manifest; by rewrite sorted_names_elem.
  - intros Hb Hm. apply findAppType_unknown; by rewrite sorted_names_elem.
  - intros Hb _. apply findAppType_bin; [done|]. by apply sorted_names_elem.
Qed.

(** ** Paths *)

Lemma append_cons c s t : String c s +:+ t = String c (s +:+ t).
Proof. reflexivity. Qed.

Lemma append_assoc s t u : (s +:+ t) +:+ u = s +:+ t +:+ u.
Proof. induction s as [|c s IH]; [done|]. by rewrite !append_cons, IH. Qed.

Lemma append_empty_r s : s +:+ EmptyString = s.
Proof. induction s as [|c s IH]; [done|]. by rewrite append_cons, IH. Qed.

Lemma prefix_empty s : String.prefix EmptyString s = true.
Proof. by destruct s. Qed.

Lemma split_from_slash cur a b :
  strings.split_from "/" 0 cur (a +:+ "/" +:+ b)
  = strings.split_from "/" 0 cur a ++ strings.split_from "/" 0 EmptyString b.
Proof.
  revert cur. induction a as [|c a IH]; intros cur.
  { change (EmptyString +:+ "/" +:+ b) with (String "/" b).
    cbn. by rewrite prefix_empty. }
  rewrite append_cons. cbn [strings.split_from String.prefix String.length].
  destruct (ascii_dec "/" c); simpl.
  - by rewrite !prefix_empty, IH.
  - apply IH.
Qed.
Lemma components_child p c :
  os.components (p +:+ "/" +:+ c) = os.components p ++ os.components c.
Proof. apply split_from_slash. Qed.

Lemma get_app r p q :
  os.get r (p ++ q)
  = match os.get r p with inr t => os.get t q | inl e => inl e end.
Proof.
  revert r. induction p as [|c p IH]; intros r; simpl; [done|].
  destruct r as [| |es]; try done.
  destruct (os.lookup_entry c es); [apply IH|done].
Qed.

Lemma walk_nil r links follow cur :
  os.walk r links follow cur [] = inr cur.
Proof. by destruct links. Qed.

Lemma walk_cons r links follow cur c rest :
  os.walk r links follow cur (c :: rest)
  = if negb (os.is_dir r cur) then
      match os.get r cur with inl e => inl e | inr _ => inl ENOTDIR end
    else if String.eqb c EmptyString || String.eqb c "." then
      os.walk r links follow cur rest
    else if String.eqb c ".." then os.walk r links follow (removelast cur) rest
    else
      match os.get r (cur ++ [c]) with
      | inl e => inl e
      | inr (ILink target) =>
          if negb follow && bool_decide (rest = []) then inr (cur ++ [c])
          else
            match links with
            | O => inl ELOOP
            | S links' =>
                os.walk r links' follow
                  (if os.is_abs target then [] else cur)
                  (os.components target ++ rest)
            end
      | inr _ => os.walk r links follow (cur ++ [c]) rest
      end.
Proof. by destruct links. Qed.

Lemma walk_child r c t :
  plain_name c → is_link t = false →
  ∀ links cur rest cp,
    os.walk r links true cur rest = inr cp →
    os.get r (cp ++ [c]) = inr t →
    os.walk r links true cur (rest ++ [c]) = inr (cp ++ [c]).
Proof.
  intros (Hc1 & Hc2 & Hc3 & _) Ht links.
  induction links as [|links IHl]; intros cur rest;
    revert cur; (induction rest as [|c0 rest IH]; intros cur cp Hw Hg;
    [ rewrite walk_nil in Hw; injection Hw as <-;
      simpl app; rewrite walk_cons, walk_nil;
      pose proof Hg as Hg'; rewrite get_app in Hg';
      unfold os.is_dir;
      destruct (os.get r cur) as [e|[| |es]]; simpl in Hg'; try done;
      simpl;
      destruct (String.eqb_spec c EmptyString); [done|];
      destruct (String.eqb_spec c "."); [done|];
      destruct (String.eqb_spec c ".."); [done|];
      simpl; rewrite Hg; by destruct t
    | simpl app; rewrite walk_cons in Hw |- *;
      destruct (negb (os.is_dir r cur)); [by destruct (os.get r cur)|];
      destruct (String.eqb c0 EmptyString || String.eqb c0 "."); [by apply IH|];
      destruct (String.eqb c0 ".."); [by apply IH|];
      destruct (os.get r (cur ++ [c0])) as [e|[| target |es]];
        [done|by apply IH| |by apply IH];
      simpl in Hw |- * ]).
  - done.
  - rewrite app_assoc. by apply IHl.
Qed.

Lemma walk_nofollow r :
  ∀ links cur rest cp t,
    os.walk r links false cur rest = inr cp →
    os.get r cp = inr t → is_link t = false →
    os.walk r links true cur rest = inr cp.
Proof.
  intros links.
  induction links as [|links IHl]; intros cur rest;
    revert cur; (induction rest as [|c0 rest IH]; intros cur cp t Hw Hg Ht;
    [ by rewrite walk_nil in Hw |- *
    | rewrite walk_cons in Hw |- *;
      destruct (negb (os.is_dir r cur)); [done|];
      destruct (String.eqb c0 EmptyString || String.eqb c0 "."); [by eapply IH|];
      destruct (String.eqb c0 ".."); [by eapply IH|];
      destruct (os.get r (cur ++ [c0])) as [e|[| target |es]] eqn:Hc0;
        [done|by eapply IH| |by eapply IH];
      simpl in Hw |- *;
      destruct (bool_decide (rest = []));
        [injection Hw as <-; rewrite Hc0 in Hg; by injection Hg as <-|] ]).
  - done.
  - by eapply IHl.
Qed.

Lemma resolve_nofollow w p t :
  os.resolve w false p = inr t → is_link t = false →
  os.resolve w true p = inr t.
Proof.
  unfold os.resolve. destruct (String.eqb p EmptyString); [done|].
  destruct (os.walk (root w) os.maxSymlinks false _ _) as [e|cp] eqn:Hw; [done|].
  intros Hg Ht. by rewrite (walk_nofollow _ _ _ _ _ _ Hw Hg Ht).
Qed.

Lemma is_abs_child p q :
  p ≠ EmptyString → os.is_abs (p +:+ q) = os.is_abs p.
Proof.
  destruct p as [|a p]; [done|]. intros _.
  unfold os.is_abs, strings.HasPrefix. rewrite append_cons.
  cbn [String.prefix].
  destruct (ascii_dec "/" a); [|done]. by rewrite !prefix_empty.
Qed.

Lemma resolve_child w p c es t :
  plain_name c → is_link t = false →
  os.resolve w true p = inr (IDir es) →
  os.lookup_entry c es = Some t →
  os.resolve w true (p +:+ "/" +:+ c) = inr t.
Proof.
  intros Hc Ht. unfold os.resolve.
  destruct (String.eqb_spec p EmptyString) as [|Hp]; [done|].
  destruct (os.walk (root w) os.maxSymlinks true _ _) as [e|cp] eqn:Hw; [done|].
  intros Hg Hl.
  assert (os.get (root w) (cp ++ [c]) = inr t) as Hg'.
  { rewrite get_app, Hg. simpl. by rewrite Hl. }
  destruct (String.eqb_spec (p +:+ "/" +:+ c) EmptyString) as [Hemp|_].
  { by destruct p. }
  rewrite is_abs_child by done.
  rewrite components_child.
  destruct Hc as (? & ? & ? & Hcc). rewrite Hcc.
  by rewrite (walk_child _ c t ltac:(done) Ht _ _ _ _ Hw Hg').
Qed.

(** ** [CleanNameFromGraph] on the labels of the specification *)

(** C3 (defect of the code). The doc comment of [CleanNameFromGraph]
    promises that leading and trailing double quotes and escape characters
    are removed, and on the backslash-quote wrapped label that would give
    the bare path.  The code trims before it unescapes: the trimming eats
    the quote of the final escaped quote, so the replacement no longer sees
    that pair.  What is returned is quote, the path, backslash, and not the
    bare path; the same happens when that label comes in double quotes, as a
    DOT identifier does. *)
Theorem C3_escaped_label_mangled :
  CleanNameFromGraph escaped_label = dquote +:+ "/nix/store/abc" +:+ backslash ∧
  CleanNameFromGraph (quoted escaped_label)
    = dquote +:+ "/nix/store/abc" +:+ backslash ∧
  CleanNameFromGraph escaped_label ≠ "/nix/store/abc".
Proof. split; [reflexivity|]. split; [reflexivity|]. by vm_compute. Qed.

(** ** [parseAppDetails] on malformed paths *)

(** C4, as stated, fails: on a path with fewer than three segments that
    cannot be listed, the error is the one of the listing, not an
    invalid-path error. *)
Lemma C4_unlisted_path_error :
  (List.length (segments "/store/onlyonepart") < 3)%nat ∧
  ∃ e, parseAppDetails demo_world "/store/onlyonepart" = Err e ∧
       ¬ invalid_path_error e.
Proof.
  split; [vm_compute; lia|].
  eexists. split; [by vm_compute|]. by intros [named ?].
Qed.

(** C4 (amended). A path with fewer than three segments never yields an
    [App].  When its directory can be listed, the call fails with
    [invalid path: ] followed by the path as it is after the store prefix
    has been stripped; when the listing fails, the call fails with the
    listing's error. *)
Theorem C4_short_path_rejected w path :
  (List.length (segments path) < 3)%nat →
  (∀ app, parseAppDetails w path ≠ Ok app) ∧
  (∀ fs, os.ReadDir w path = Ok fs →
     parseAppDetails w path =
       Err (errorString ("invalid path: " +:+ strings.TrimPrefix path "/nix/store/"))) ∧
  (∀ e, os.ReadDir w path = Err e → parseAppDetails w path = Err e).
Proof.
  unfold segments. intros Hshort. apply Nat.ltb_lt in Hshort.
  unfold parseAppDetails. rewrite Hshort.
  destruct (os.ReadDir w path); repeat split; intros; congruence.
Qed.

Lemma C4_short_path_rejected_witness :
  (List.length (segments "/nix/store/onlyonepart") < 3)%nat ∧
  (∀ app, parseAppDetails demo_world "/nix/store/onlyonepart" ≠ Ok app).
Proof.
  assert (List.length (segments "/nix/store/onlyonepart") < 3)%nat as H
    by (vm_compute; lia).
  split; [exact H|].
  exact (proj1 (C4_short_path_rejected demo_world "/nix/store/onlyonepart" H)).
Defined.

(** ** [artifactHash] *)

Lemma lookup_entry_elem c es t :
  os.lookup_entry c es = Some t → c ∈ es.*1.
Proof.
  induction es as [|[n t'] es IH]; simpl; [done|].
  destruct (String.eqb_spec n c) as [->|_]; [left|right; auto].
Qed.

Section artifactHash.
Variable json_Unmarshal : string → result imgv1.Manifest.

Lemma artifactHash_loop_none w output symlink fs :
  "bin" ∉ os.Name <$> fs → "manifest.json" ∉ os.Name <$> fs →
  artifactHash_loop json_Unmarshal w output symlink fs = Ok EmptyString.
Proof.
  induction fs as [|f fs IH]; simpl; intros Hnb Hnm; [done|].
  apply not_elem_of_cons in Hnb as [? ?], Hnm as [? ?].
  destruct (String.eqb_spec (os.Name f) "bin"); [congruence|].
  destruct (String.eqb_spec (os.Name f) "manifest.json"); [congruence|auto].
Qed.

Lemma artifactHash_loop_manifest w output symlink fs :
  "bin" ∉ os.Name <$> fs → "manifest.json" ∈ os.Name <$> fs →
  artifactHash_loop json_Unmarshal w output symlink fs =
    match os.ReadFile w (output +:+ symlink +:+ "/manifest.json") with
    | Err err => Err err
    | Ok fbytes =>
        match json_Unmarshal fbytes with
        | Err err => Err err
        | Ok manifest =>
            Ok (strings.TrimPrefix (imgv1.Digest (imgv1.Config manifest)) "sha256:")
        end
    end.
Proof.
  induction fs as [|f fs IH]; simpl; intros Hnb Hin.
  - by apply elem_of_nil in Hin.
  - apply not_elem_of_cons in Hnb as [? ?].
    destruct (String.eqb_spec (os.Name f) "bin"); [congruence|].
    destruct (String.eqb_spec (os.Name f) "manifest.json"); [done|].
    apply elem_of_cons in Hin as [?|?]; [congruence|auto].
Qed.

Lemma artifactHash_loop_bin w output symlink fs :
  StronglySorted os.name_le fs → "bin" ∈ os.Name <$> fs →
  artifactHash_loop json_Unmarshal w output symlink fs =
    match findResultBinary w output symlink with
    | Err err => Err err
    | Ok binName => fileSHA256 w (output +:+ symlink +:+ "/bin/" +:+ binName)
    end.
Proof.
  induction 1 as [|f fs Hs IH Hall]; simpl; intros Hin.
  - by apply elem_of_nil in Hin.
  - destruct (String.eqb_spec (os.Name f) "bin") as [|Hnb].
    { destruct (findResultBinary _ _ _); [|done]. by destruct (fileSHA256 _ _). }
    apply elem_of_cons in Hin as [Heq|Hin]; [congruence|].
    destruct (String.eqb_spec (os.Name f) "manifest.json") as [Hm|_]; [|auto].
    apply list_elem_of_fmap in Hin as (f' & Hf' & Hin).
    rewrite Forall_forall in Hall. specialize (Hall f' Hin).
    unfold os.name_le in Hall. rewrite Hm, <-Hf' in Hall. done.
Qed.

Lemma plain_manifest_json : plain_name "manifest.json".
Proof. by repeat split. Qed.

Lemma plain_bin : plain_name "bin".
Proof. by repeat split. Qed.

(** C7. When the output directory can be listed and none of its entries
    is named [bin] or [manifest.json], [artifactHash] returns the empty
    string and a nil error. *)
Theorem C7_no_artifact_shape w output symlink es :
  os.resolve w true (output +:+ symlink) = inr (IDir es) →
  "bin" ∉ es.*1 → "manifest.json" ∉ es.*1 →
  artifactHash json_Unmarshal w output symlink = Ok EmptyString.
Proof.
  intros Hdir Hnb Hnm. unfold artifactHash. rewrite (ReadDir_dir _ _ _ Hdir).
  apply artifactHash_loop_none; by rewrite sorted_names_elem.
Qed.

(** C6. When the output directory has a file [manifest.json] and no
    entry [bin], and the file unmarshals to a manifest whose config
    digest is [sha256:deadbeef], [artifactHash] returns [deadbeef] and a
    nil error. *)
Theorem C6_manifest_digest w output symlink es x fbytes manifest :
  os.resolve w true (output +:+ symlink) = inr (IDir es) →
  "bin" ∉ es.*1 →
  os.lookup_entry "manifest.json" es = Some (IFile x fbytes) →
  json_Unmarshal fbytes = Ok manifest →
  imgv1.Digest (imgv1.Config manifest) = "sha256:deadbeef" →
  artifactHash json_Unmarshal w output symlink = Ok "deadbeef".
Proof.
  intros Hdir Hnb Hm Hjson Hdigest.
  unfold artifactHash. rewrite (ReadDir_dir _ _ _ Hdir).
  rewrite artifactHash_loop_manifest;
    [|by rewrite sorted_names_elem
     |rewrite sorted_names_elem; by eapply lookup_entry_elem].
  pose proof (resolve_child w _ _ _ (IFile x fbytes) plain_manifest_json eq_refl Hdir Hm) as Hf.
  rewrite append_assoc in Hf. unfold os.ReadFile.
  change ("/" +:+ "manifest.json") with "/manifest.json" in Hf.
  by rewrite Hf, Hjson, Hdigest.
Qed.
End artifactHash.

Lemma C7_no_artifact_shape_witness :
  artifactHash demo_Unmarshal demo_world "./" "docs" = Ok EmptyString.
Proof.
  apply (C7_no_artifact_shape demo_Unmarshal demo_world "./" "docs"
           [("README", IFile false "read me")]).
  - reflexivity.
  - by apply (bool_decide_unpack _).
  - by apply (bool_decide_unpack _).
Defined.

Lemma C6_manifest_digest_witness :
  artifactHash demo_Unmarshal demo_world "/out/" "image" = Ok "deadbeef".
Proof.
  eapply (C6_manifest_digest demo_Unmarshal demo_world "/out/" "image").
  - reflexivity.
  - by apply (bool_decide_unpack _).
  - reflexivity.
  - reflexivity.
  - reflexivity.
Defined.

(** ** [GetRuntimeClosureGraph] *)

Lemma merge_sort_singleton {A} (R : relation A) `{∀ x y, Decision (R x y)} (a : A) :
  merge_sort R [a] = [a].
Proof. reflexivity. Qed.

Lemma plain_mytool : plain_name "mytool".
Proof. by repeat split. Qed.

Lemma GetNarHashFromPath_Lstat w path t :
  os.resolve w false path = inr t →
  GetNarHashFromPath w path
  = Ok (nixbase32.EncodeToString (sha256.Sum256 (nar.archive t))).
Proof.
  intros H. unfold GetNarHashFromPath, nar.DumpPath, os.Lstat. by rewrite H.
Qed.

Section GetRuntimeClosureGraph.
Variable json_Unmarshal : string → result imgv1.Manifest.
Variable Ast : Type.
Variable ParseString : string → result Ast.
Variable Analyse : Ast → gographviz.Graph → result gographviz.Graph.

(** C1 (amended). When the output root is a symbolic link to the store
    path [xyz123-mytool-1.2.3], a directory whose [bin] holds the file
    [mytool], and the graph is obtained, the summary returned has
    AppType Executable and BinaryHash the hex SHA-256 of the bytes of
    [mytool]; its Version is the fixed string [0.0.0] (the version
    [1.2.3] parsed from the path is overwritten), and its Name is the
    name passed in. *)
Theorem C1_end_to_end_summary w appName output symlink es x data ast g :
  os.Readlink w (output +:+ symlink) = Ok mytool_store_path →
  os.resolve w false mytool_store_path = inr (IDir es) →
  os.resolve w true (output +:+ symlink) = inr (IDir es) →
  os.lookup_entry "bin" es = Some (IDir [("mytool", IFile x data)]) →
  ExitOk (run w "nix-store" ["-q"; "--graph"; output +:+ symlink]) = true →
  ParseString (Stdout (run w "nix-store" ["-q"; "--graph"; output +:+ symlink]))
    = Ok ast →
  Analyse ast gographviz.NewGraph = Ok g →
  ∃ app graph,
    GetRuntimeClosureGraph json_Unmarshal Ast ParseString Analyse
      w appName output symlink = Ok (app, graph) ∧
    Version app = "0.0.0" ∧
    AppType app = sbom.Purpose_EXECUTABLE ∧
    BinaryHash app = hex.EncodeToString (sha256.Sum256 data) ∧
    Name app = appName.
Proof.
  intros Hlink Hstore Hout Hbin Hexit Hparse Hanalyse.
  pose proof (resolve_nofollow _ _ _ Hstore eq_refl) as Hstore'.
  pose proof (lookup_entry_elem _ _ _ Hbin) as Hbin_in.
  pose proof (resolve_child w _ "bin" es (IDir [("mytool", IFile x data)])
                plain_bin eq_refl Hout Hbin) as Hbindir.
  pose proof (resolve_child w _ "mytool" _ (IFile x data) plain_mytool eq_refl
                Hbindir eq_refl) as Hfile.
  assert (∀ a b, (a +:+ b) +:+ "/" +:+ "bin" = a +:+ b +:+ "/bin") as Ebin
    by (intros; by rewrite append_assoc).
  assert (∀ a b, ((a +:+ b) +:+ "/" +:+ "bin") +:+ "/" +:+ "mytool"
                 = a +:+ b +:+ "/bin/" +:+ "mytool") as Efile
    by (intros; by rewrite !append_assoc).
  rewrite Efile in Hfile. rewrite Ebin in Hbindir.
  unfold GetRuntimeClosureGraph, GetAppDetails.
  rewrite Hlink, (GetNarHashFromPath_Lstat _ _ _ Hstore).
  unfold parseAppDetails. rewrite (ReadDir_dir _ _ _ Hstore').
  change (strings.Split (strings.TrimPrefix mytool_store_path "/nix/store/") "-")
    with ["xyz123"; "mytool"; "1.2.3"].
  cbn [List.length Nat.ltb Nat.leb].
  rewrite Hexit, Hparse, Hanalyse. cbn [negb].
  unfold artifactHash. rewrite (ReadDir_dir _ _ _ Hout).
  rewrite artifactHash_loop_bin;
    [|apply StronglySorted_merge_sort; apply _|by apply sorted_names_elem].
  unfold findResultBinary.
  rewrite (ReadDir_dir _ _ _ Hbindir).
  cbn [fmap list_fmap]. rewrite merge_sort_singleton. cbn [os.entry_of os.Name fst].
  unfold fileSHA256, os.Open.
  rewrite Hfile. cbn [os.ReadAll os.file_node].
  eexists _, _. split; [reflexivity|]. cbn.
  repeat split.
  apply findAppType_bin; [apply StronglySorted_merge_sort; apply _|].
  by apply sorted_names_elem.
Qed.
End GetRuntimeClosureGraph.

(** C1, as stated, fails: on the concrete store the summary's Version is
    not the version of the store path. *)
Lemma C1_version_not_from_path :
  os.Readlink demo_world "/out/result" = Ok mytool_store_path ∧
  ∃ app graph,
    GetRuntimeClosureGraph demo_Unmarshal string demo_ParseString demo_Analyse
      demo_world "mytool" "/out/" "result" = Ok (app, graph) ∧
    Version app ≠ "1.2.3".
Proof.
  split; [reflexivity|].
  eexists _, _. split; [vm_compute; reflexivity|]. by cbn.
Qed.

Lemma C1_end_to_end_summary_witness :
  ∃ app graph,
    GetRuntimeClosureGraph demo_Unmarshal string demo_ParseString demo_Analyse
      demo_world "mytool" "/out/" "result" = Ok (app, graph) ∧
    Version app = "0.0.0" ∧
    AppType app = sbom.Purpose_EXECUTABLE ∧
    BinaryHash app = hex.EncodeToString (sha256.Sum256 mytool_bytes) ∧
    Name app = "mytool".
Proof.
  eapply (C1_end_to_end_summary demo_Unmarshal string demo_ParseString
            demo_Analyse demo_world "mytool" "/out/" "result");
    reflexivity.
Defined.

(** ** The goroutines of [addNarHashToGraph] *)

Lemma sum_list_with_insert {A} (f : A → nat) (l : list A) k x y :
  l !! k = Some x →
  (sum_list_with f (<[k := y]> l) + f x = sum_list_with f l + f y)%nat.
Proof.
  revert k. induction l as [|a l IH]; intros [|k] Hk; try done.
  - injection Hk as ->. clear IH. simpl. lia.
  - specialize (IH k Hk).
    change (f a + sum_list_with f (<[k := y]> l) + f x
            = f a + sum_list_with f l + f y)%nat.
    lia.
Qed.

Section conc.
Import conc.
Variable w : World.

Lemma live_insert ts k t t' :
  ts !! k = Some t →
  (live (<[k := t']> ts) + (if alive (pc t) then 1 else 0)
   = live ts + (if alive (pc t') then 1 else 0))%nat.
Proof. apply (sum_list_with_insert (λ t, if alive (pc t) then 1 else 0)%nat). Qed.

Lemma live_app ts t :
  live (ts ++ [t]) = (live ts + (if alive (pc t) then 1 else 0))%nat.
Proof. unfold live. rewrite sum_list_with_app. simpl. lia. Qed.

Lemma live_zero ts k t : live ts = O → ts !! k = Some t → pc t = Exited.
Proof.
  unfold live. revert k. induction ts as [|a ts IH]; intros [|k] H0 Hk; try done;
    simpl in *.
  - injection Hk as ->. destruct (pc t); simpl in *; try lia; done.
  - apply (IH k); [lia|done].
Qed.

Lemma live_pos ts :
  (0 < live ts)%nat → ∃ k t, ts !! k = Some t ∧ alive (pc t) = true.
Proof.
  unfold live. induction ts as [|a ts IH]; simpl; [lia|].
  destruct (alive (pc a)) eqn:Ha.
  - intros _. by exists O, a.
  - intros H. destruct IH as (k & t & ? & ?); [lia|]. by exists (S k), t.
Qed.

Lemma inv_target ns0 s k t :
  inv w ns0 s → tasks s !! k = Some t → target t = k.
Proof.
  intros Hi Hk.
  assert ((target <$> tasks s) !! k = Some (target t)) as H
    by (by rewrite list_lookup_fmap, Hk).
  rewrite (inv_targets _ _ _ Hi) in H.
  apply lookup_seq in H as [? _]. done.
Qed.

Lemma inv_tasks_le ns0 s :
  inv w ns0 s → (List.length (tasks s) ≤ List.length ns0)%nat.
Proof. intros Hi. pose proof (inv_main _ _ _ Hi). destruct (main s); lia. Qed.

Lemma inv_init g : inv w (gographviz.Nodes g) (init g).
Proof. split; simpl; try done. lia. Qed.

(** A goroutine's step keeps the invariant when it takes its own node
    along. *)
Lemma inv_task_moves ns0 s k t p f d :
  inv w ns0 s →
  tasks s !! k = Some t →
  alive (pc t) = true →
  d = (if alive p then 0 else -1)%Z →
  (∀ n0 n, ns0 !! k = Some n0 → nodes s !! k = Some n →
           progress w n0 (pc t) n → progress w n0 p (f n)) →
  inv w ns0 (task_moves s k t p f d).
Proof.
  intros Hi Hk Halive -> Hf.
  pose proof (inv_target _ _ _ _ Hi Hk) as Htk.
  pose proof (live_insert _ _ _ {| target := target t; pc := p |} Hk) as Hlive.
  rewrite Halive in Hlive. simpl in Hlive.
  split; simpl.
  - by rewrite length_alter, (inv_length _ _ _ Hi).
  - rewrite length_insert, list_fmap_insert. simpl.
    rewrite list_insert_id; [apply Hi|].
    by rewrite list_lookup_fmap, Hk.
  - intros j t' n0 n Hj Hn0 Hn. rewrite Htk in Hn.
    destruct (decide (j = k)) as [->|Hne].
    + rewrite list_lookup_insert_eq in Hj by (by eapply lookup_lt_Some).
      injection Hj as <-. simpl.
      rewrite list_lookup_alter_eq in Hn.
      destruct (nodes s !! k) as [n'|] eqn:Hn'; simplify_eq/=.
      apply Hf; [done..|]. by eapply (inv_started _ _ _ Hi).
    + rewrite list_lookup_insert_ne in Hj by done.
      rewrite list_lookup_alter_ne in Hn by done.
      by eapply (inv_started _ _ _ Hi).
  - intros j Hj. rewrite length_insert in Hj. rewrite Htk.
    rewrite list_lookup_alter_ne; [by apply Hi|].
    apply lookup_lt_Some in Hk. lia.
  - rewrite (inv_wg _ _ _ Hi). destruct (alive p); lia.
  - pose proof (inv_main _ _ _ Hi) as Hm. rewrite length_insert.
    destruct (main s); try done.
    destruct Hm as [_ Hm]. pose proof (live_zero _ _ _ Hm Hk) as He.
    rewrite He in Halive. done.
Qed.

Lemma inv_step ns0 s a s' : inv w ns0 s → step w s a s' → inv w ns0 s'.
Proof.
  intros Hi Hstep.
  destruct Hstep as
    [s i Hm Hlt | s i Hm | s i Hm Hle | s Hm Hwg
    | s k t node hash Hk Hpc Hnode Hhash
    | s k t node err Hk Hpc Hnode Hhash
    | s k t path hash Hk Hpc
    | s k t path app Hk Hpc Hparse
    | s k t path err Hk Hpc Hparse
    | s k t app Hk Hpc
    | s k t app Hk Hpc
    | s k t Hk Hpc].
  - pose proof (inv_main _ _ _ Hi) as Hmain. pose proof (inv_wg _ _ _ Hi) as Hwg.
    rewrite Hm in Hmain, Hwg.
    split; simpl; try apply Hi.
    + lia.
    + pose proof (inv_length _ _ _ Hi). lia.
  - pose proof (inv_main _ _ _ Hi) as Hmain. pose proof (inv_wg _ _ _ Hi) as Hwg.
    rewrite Hm in Hmain, Hwg. destruct Hmain as [Hlen Hlt].
    split; simpl.
    + apply Hi.
    + rewrite fmap_app, length_app, (inv_targets _ _ _ Hi). simpl.
      rewrite Nat.add_1_r, seq_S. simpl. by rewrite Hlen.
    + intros k t n0 n Hk Hn0 Hn.
      apply lookup_app_Some in Hk as [Hk|[Hge Hk]].
      * by eapply (inv_started _ _ _ Hi).
      * apply list_lookup_singleton_Some in Hk as [Hk <-]. simpl.
        rewrite (inv_not_started _ _ _ Hi) in Hn by lia. congruence.
    + intros k Hk. rewrite length_app in Hk. simpl in Hk.
      apply (inv_not_started _ _ _ Hi). lia.
    + rewrite live_app. simpl. lia.
    + rewrite length_app. simpl. lia.
  - pose proof (inv_main _ _ _ Hi) as Hmain. pose proof (inv_wg _ _ _ Hi) as Hwg.
    rewrite Hm in Hmain, Hwg.
    split; simpl; try apply Hi.
    + done.
    + pose proof (inv_length _ _ _ Hi). lia.
  - pose proof (inv_main _ _ _ Hi) as Hmain. pose proof (inv_wg _ _ _ Hi) as Hwg'.
    rewrite Hm in Hmain, Hwg'.
    split; simpl; try apply Hi.
    + lia.
    + split; [done|lia].
  - pose proof (inv_target _ _ _ _ Hi Hk) as Htk. rewrite Htk in Hnode.
    eapply inv_task_moves; try done; [by rewrite Hpc|].
    rewrite Hpc. simpl. intros n0 n Hn0 Hn ->. by simplify_eq.
  - pose proof (inv_target _ _ _ _ Hi Hk) as Htk. rewrite Htk in Hnode.
    eapply inv_task_moves; try done; [by rewrite Hpc|].
    rewrite Hpc. simpl. intros n0 n Hn0 Hn ->. simplify_eq.
    unfold enrich_node. by rewrite Hhash.
  - eapply inv_task_moves; try done; [by rewrite Hpc|].
    rewrite Hpc. simpl. intros n0 n _ _ (-> & -> & Hh). by exists hash.
  - eapply inv_task_moves; try done; [by rewrite Hpc|].
    rewrite Hpc. simpl. intros n0 n _ _ (h & -> & -> & Hh). by exists h.
  - eapply inv_task_moves; try done; [by rewrite Hpc|].
    rewrite Hpc. simpl. intros n0 n _ _ (h & -> & -> & Hh).
    unfold enrich_node. by rewrite Hh, Hparse.
  - eapply inv_task_moves; try done; [by rewrite Hpc|].
    rewrite Hpc. simpl. intros n0 n _ _ (h & -> & Hh & Hp). by exists h.
  - eapply inv_task_moves; try done; [by rewrite Hpc|].
    rewrite Hpc. simpl. intros n0 n _ _ (h & -> & Hh & Hp).
    unfold enrich_node. by rewrite Hh, Hp.
  - eapply inv_task_moves; try done; [by rewrite Hpc|].
    rewrite Hpc. simpl. by intros n0 n _ _ ->.
Qed.

Lemma inv_steps g tr s :
  steps w (init g) tr s → inv w (gographviz.Nodes g) s.
Proof.
  intros H. remember (init g) as s0 eqn:E.
  induction H as [s0|s0 tr s' a s'' _ IH Hstep]; subst; [apply inv_init|].
  eapply inv_step; [by apply IH|done].
Qed.
End conc.

Section conc_results.
Import conc.
Variable w : World.

Lemma inv_returned ns0 s :
  inv w ns0 s → main s = Returned →
  nodes s = enrich_node w <$> ns0 ∧ Forall (λ t, pc t = Exited) (tasks s).
Proof.
  intros Hi Hm. pose proof (inv_main _ _ _ Hi) as Hmain. rewrite Hm in Hmain.
  destruct Hmain as [Hlen Hlive]. split.
  - apply list_eq. intros k. rewrite list_lookup_fmap.
    destruct (ns0 !! k) as [n0|] eqn:Hn0; simpl.
    + pose proof (lookup_lt_Some _ _ _ Hn0) as Hk.
      destruct (lookup_lt_is_Some_2 (tasks s) k) as [t Ht]; [lia|].
      destruct (lookup_lt_is_Some_2 (nodes s) k) as [n Hn];
        [rewrite (inv_length _ _ _ Hi); lia|].
      pose proof (inv_started _ _ _ Hi _ _ _ _ Ht Hn0 Hn) as Hp.
      rewrite (live_zero _ _ _ Hlive Ht) in Hp. simpl in Hp. by rewrite Hn, Hp.
    + apply lookup_ge_None. rewrite (inv_length _ _ _ Hi).
      by apply lookup_ge_None.
  - apply Forall_lookup. intros k t Ht. by eapply live_zero.
Qed.

(** A goroutine that has not finished can always take its next step,
    whatever the others have done. *)
Lemma task_enabled ns0 s k t :
  inv w ns0 s → tasks s !! k = Some t → alive (pc t) = true →
  ∃ s', step w s (Task k) s'.
Proof.
  intros Hi Ht Halive.
  pose proof (inv_target _ _ _ _ _ Hi Ht) as Htk.
  pose proof (inv_tasks_le _ _ _ Hi) as Hle.
  pose proof (lookup_lt_Some _ _ _ Ht) as Hk.
  destruct (lookup_lt_is_Some_2 (nodes s) (target t)) as [n Hn];
    [rewrite (inv_length _ _ _ Hi); lia|].
  destruct (pc t) as [|path hash|path|app|app| |] eqn:Hpc; try done.
  - destruct (GetNarHashFromPath w ("/nix/store/" +:+ node_path n)) eqn:Hh;
      eexists; [by eapply step_hash_ok|by eapply step_hash_err].
  - eexists. by eapply step_store_hash.
  - destruct (parseAppDetails w ("/nix/store/" +:+ path)) eqn:Hp;
      eexists; [by eapply step_parse_ok|by eapply step_parse_err].
  - eexists. by eapply step_store_name.
  - eexists. by eapply step_store_version.
  - eexists. by eapply step_done.
Qed.

(** No reachable state is stuck before the call has returned. *)
Lemma inv_progress ns0 s :
  inv w ns0 s → main s ≠ Returned → ∃ a s', step w s a s'.
Proof.
  intros Hi Hm. destruct (main s) as [i|i| |] eqn:Hmain; try done.
  - destruct (decide (i < List.length (nodes s))%nat).
    + eexists _, _. by eapply step_add.
    + eexists _, _. eapply step_loop_end; [done|lia].
  - eexists _, _. by eapply step_go.
  - destruct (decide (wg s = 0%Z)) as [Hwg|Hwg].
    + eexists _, _. by eapply step_wait.
    + pose proof (inv_wg _ _ _ Hi) as Hwg'. rewrite Hmain in Hwg'.
      destruct (live_pos (tasks s)) as (k & t & Ht & Ha); [lia|].
      destruct (task_enabled _ _ _ _ Hi Ht Ha) as [s' Hs']. by exists (Task k), s'.
Qed.

Lemma measure_task_moves s k t p f d :
  tasks s !! k = Some t →
  (task_measure p < task_measure (pc t))%nat →
  (measure (task_moves s k t p f d) < measure s)%nat.
Proof.
  intros Ht Hlt. unfold measure. simpl. rewrite length_alter.
  pose proof (sum_list_with_insert (λ t, task_measure (pc t)) _ _ _
                {| target := target t; pc := p |} Ht) as H.
  simpl in H. lia.
Qed.

(** Every step uses up some of the measure. *)
Lemma measure_step ns0 s a s' :
  inv w ns0 s → step w s a s' → (measure s' < measure s)%nat.
Proof.
  intros Hi Hstep. pose proof (inv_main _ _ _ Hi) as Hmain.
  pose proof (inv_length _ _ _ Hi) as Hlen.
  destruct Hstep; try (apply measure_task_moves; [done|];
    match goal with H : pc _ = _ |- _ => rewrite H end; simpl; lia).
  - unfold measure. simpl. rewrite H. lia.
  - unfold measure. simpl. rewrite H in Hmain |- *.
    rewrite sum_list_with_app. simpl. lia.
  - unfold measure. simpl. rewrite H. lia.
  - unfold measure. simpl. rewrite H. lia.
Qed.

Lemma inv_returns ns0 s : inv w ns0 s → returns w s.
Proof.
  remember (measure s) as m eqn:Hm. revert s Hm.
  induction m as [m IH] using lt_wf_ind. intros s -> Hi.
  assert (main s = Returned ∨ main s ≠ Returned) as [|Hne]
    by (destruct (main s); auto); [by apply returns_now|].
  apply returns_later; [by eapply inv_progress|].
  intros a s' Hstep. eapply IH; [by eapply measure_step|done|by eapply inv_step].
Qed.

Lemma steps_bounded g tr s :
  steps w (init g) tr s →
  (List.length tr + measure s ≤ 8 * List.length (gographviz.Nodes g) + 2)%nat.
Proof.
  intros H. pose proof H as Hreach. revert Hreach.
  remember (init g) as s0 eqn:E.
  induction H as [s0|s0 tr s' a s'' H1 IH Hstep]; subst; intros Hreach.
  - unfold measure. simpl. lia.
  - specialize (IH eq_refl H1).
    pose proof (measure_step _ _ _ _ (inv_steps w g _ _ H1) Hstep).
    rewrite length_app. simpl. lia.
Qed.

(** Every execution ends with the graph of [addNarHashToGraph], and there
    is an execution. *)
Lemma returns_reaches s :
  returns w s → ∃ tr s', steps w s tr s' ∧ main s' = Returned.
Proof.
  induction 1 as [s Hm|s [a [s1 Hs1]] _ IH].
  - exists [], s. split; [constructor|done].
  - destruct (IH _ _ Hs1) as (tr & s' & Hsteps & Hm).
    exists (a :: tr), s'. split; [|done].
    clear -Hs1 Hsteps. induction Hsteps as [|s1 tr s2 b s3 _ IH' Hstep].
    + apply (steps_snoc _ _ [] s). { constructor. } done.
    + rewrite app_comm_cons. eapply steps_snoc; [by apply IH'|done].
Qed.

Lemma addNarHashToGraph_runs_iff g g' :
  addNarHashToGraph_runs w g g' ↔ g' = addNarHashToGraph w g.
Proof.
  unfold addNarHashToGraph_runs, addNarHashToGraph. split.
  - intros (tr & s & Hsteps & Hm & ->).
    pose proof (inv_steps w g _ _ Hsteps) as Hi.
    by destruct (inv_returned _ _ Hi Hm) as [-> _].
  - intros ->.
    destruct (returns_reaches _ (inv_returns _ _ (inv_init w g)))
      as (tr & s & Hsteps & Hm).
    exists tr, s. repeat split; try done.
    pose proof (inv_steps w g _ _ Hsteps) as Hi.
    by destruct (inv_returned _ _ Hi Hm) as [-> _].
Qed.
End conc_results.

(** ** Schedules *)

Section schedules.
Import conc.
Variable w : World.

Lemma step_of_sound s a s' : step_of w s a = Some s' → step w s a s'.
Proof.
  unfold step_of. destruct a as [|k].
  - destruct (main s) as [i|i| |] eqn:Hm; [| | |done].
    + case_decide; intros [= <-]; [by eapply step_add|].
      eapply step_loop_end; [done|lia].
    + intros [= <-]. by eapply step_go.
    + case_decide; [|done]. intros [= <-]. by eapply step_wait.
  - destruct (tasks s !! k) as [t|] eqn:Ht; [|done].
    destruct (pc t) as [|path hash|path|app|app| |] eqn:Hpc; [| | | | | |done].
    + destruct (nodes s !! target t) as [node|] eqn:Hn; [|done].
      destruct (GetNarHashFromPath w _) eqn:Hh; intros [= <-];
        [by eapply step_hash_ok|by eapply step_hash_err].
    + intros [= <-]. by eapply step_store_hash.
    + destruct (parseAppDetails w _) eqn:Hp; intros [= <-];
        [by eapply step_parse_ok|by eapply step_parse_err].
    + intros [= <-]. by eapply step_store_name.
    + intros [= <-]. by eapply step_store_version.
    + intros [= <-]. by eapply step_done.
Qed.

(** Each actor has at most one step. *)
Lemma step_of_complete s a s' : step w s a s' → step_of w s a = Some s'.
Proof.
  destruct 1; unfold step_of;
    repeat match goal with
           | H : main _ = _ |- _ => rewrite H
           | H : tasks _ !! _ = _ |- _ => rewrite H
           | H : pc _ = _ |- _ => rewrite H
           | H : nodes _ !! _ = _ |- _ => rewrite H
           | H : GetNarHashFromPath _ _ = _ |- _ => rewrite H
           | H : parseAppDetails _ _ = _ |- _ => rewrite H
           end; try done.
  - by rewrite decide_True.
  - by rewrite decide_False by lia.
  - by rewrite decide_True.
Qed.

Lemma steps_cons s a s1 tr s2 :
  step w s a s1 → steps w s1 tr s2 → steps w s (a :: tr) s2.
Proof.
  intros Hs1. induction 1 as [|s1 tr s2 b s3 _ IH Hstep].
  - apply (steps_snoc _ _ [] s); [constructor|done].
  - rewrite app_comm_cons. eapply steps_snoc; [by apply IH|done].
Qed.

Lemma run_schedule_sound sched s s' :
  run_schedule w s sched = Some s' → steps w s sched s'.
Proof.
  revert s. induction sched as [|a sched IH]; intros s; simpl.
  - intros [= <-]. constructor.
  - destruct (step_of w s a) as [s1|] eqn:Hs1; [|done].
    intros H. eapply steps_cons; [by apply step_of_sound|by apply IH].
Qed.
End schedules.

(** ** Claims on [addNarHashToGraph] *)

(** C8. In every state an execution of [addNarHashToGraph] can reach:
    the goroutines started so far are those of the first nodes, one each,
    in the order of the nodes, and once the loop is over there is exactly
    one per node; the wait-group counter is never negative; when the call
    has returned every goroutine has finished and the nodes carry all the
    attribute writes; on every schedule the call does return; and any
    goroutine that has not finished may be the next to move, so no order
    holds among the nodes. *)
Theorem C8_one_goroutine_per_node_joined w g tr s :
  conc.steps w (conc.init g) tr s →
  conc.target <$> conc.tasks s = seq 0 (List.length (conc.tasks s)) ∧
  (List.length (conc.tasks s) ≤ List.length (gographviz.Nodes g))%nat ∧
  (conc.main s = conc.Wait ∨ conc.main s = conc.Returned →
     List.length (conc.tasks s) = List.length (gographviz.Nodes g)) ∧
  (0 ≤ conc.wg s)%Z ∧
  (conc.main s = conc.Returned →
     Forall (λ t, conc.pc t = conc.Exited) (conc.tasks s) ∧
     conc.nodes s = enrich_node w <$> gographviz.Nodes g) ∧
  conc.returns w s ∧
  (∀ k t, conc.tasks s !! k = Some t → conc.pc t ≠ conc.Exited →
          ∃ s', conc.step w s (conc.Task k) s').
Proof.
  intros Hi%inv_steps.
  split; [apply Hi|]. split; [by eapply inv_tasks_le|].
  split.
  { pose proof (conc.inv_main _ _ _ Hi) as Hm. intros [E|E]; rewrite E in Hm; tauto. }
  split.
  { rewrite (conc.inv_wg _ _ _ Hi). destruct (conc.main s); lia. }
  split.
  { intros Hm. destruct (inv_returned _ _ _ Hi Hm). done. }
  split; [by eapply inv_returns|].
  intros k t Ht Hpc. eapply task_enabled; [done..|]. by destruct (conc.pc t).
Qed.

(** The two schedules on the concrete graph. *)
Lemma demo_run_reversed :
  ∃ s, conc.run_schedule demo_world (conc.init demo_graph) schedule_reversed = Some s ∧
       conc.main s = conc.Returned ∧
       conc.exit_order demo_world (conc.init demo_graph) schedule_reversed = [2; 1; 0].
Proof.
  exists (default (conc.init demo_graph)
            (conc.run_schedule demo_world (conc.init demo_graph) schedule_reversed)).
  repeat split; vm_compute; reflexivity.
Qed.

Lemma demo_run_in_order :
  ∃ s, conc.run_schedule demo_world (conc.init demo_graph) schedule_in_order = Some s ∧
       conc.main s = conc.Returned ∧
       conc.exit_order demo_world (conc.init demo_graph) schedule_in_order = [0; 1; 2].
Proof.
  exists (default (conc.init demo_graph)
            (conc.run_schedule demo_world (conc.init demo_graph) schedule_in_order)).
  repeat split; vm_compute; reflexivity.
Qed.

Lemma C8_one_goroutine_per_node_joined_witness :
  ∃ s, conc.run_schedule demo_world (conc.init demo_graph) schedule_reversed = Some s ∧
       conc.main s = conc.Returned ∧
       Forall (λ t, conc.pc t = conc.Exited) (conc.tasks s) ∧
       conc.nodes s = enrich_node demo_world <$> gographviz.Nodes demo_graph.
Proof.
  destruct demo_run_reversed as (s & Hrun & Hm & _).
  exists s. split; [exact Hrun|]. split; [exact Hm|].
  pose proof (C8_one_goroutine_per_node_joined demo_world demo_graph
                schedule_reversed s (run_schedule_sound _ _ _ _ Hrun))
    as (_ & _ & _ & _ & Hjoin & _).
  exact (Hjoin Hm).
Defined.

(** C2. Let node [K] stand for a store path at which nothing exists, and
    every other node for a path that can be archived and listed and has at
    least three segments; let node [K] carry none of the attributes [hash],
    [name], [version] beforehand, as in any graph [Analyse] builds.  Then
    the call returns on every schedule, and in the graph it leaves node [K]
    has none of the three attributes while every other node has all
    three. *)
Theorem C2_missing_node_is_skipped w g K nodeK :
  gographviz.Nodes g !! K = Some nodeK →
  missing w (store_path nodeK) →
  (∀ i node, i ≠ K → gographviz.Nodes g !! i = Some node →
             readable_well_formed w (store_path node)) →
  (∀ key, key ∈ enrichment_keys → gographviz.Attrs nodeK !! key = None) →
  conc.returns w (conc.init g) ∧
  ∀ g', addNarHashToGraph_runs w g g' →
    List.length (gographviz.Nodes g') = List.length (gographviz.Nodes g) ∧
    (∃ nodeK', gographviz.Nodes g' !! K = Some nodeK' ∧
       ∀ key, key ∈ enrichment_keys → gographviz.Attrs nodeK' !! key = None) ∧
    (∀ i node, i ≠ K → gographviz.Nodes g !! i = Some node →
       ∃ node', gographviz.Nodes g' !! i = Some node' ∧
         ∀ key, key ∈ enrichment_keys → is_Some (gographviz.Attrs node' !! key)).
Proof.
  intros HK Hmissing Hothers Hfresh.
  split; [apply (inv_returns w (gographviz.Nodes g)), inv_init|].
  intros g' ->%addNarHashToGraph_runs_iff. simpl.
  split; [by rewrite length_fmap|]. split.
  - exists nodeK. split.
    + rewrite list_lookup_fmap, HK. simpl. f_equal.
      unfold enrich_node, GetNarHashFromPath, nar.DumpPath, os.Lstat.
      unfold missing, store_path in Hmissing. by rewrite Hmissing.
    + done.
  - intros i node Hi Hnode.
    destruct (Hothers i node Hi Hnode) as ((t & Ht) & (es & Hes) & Hseg).
    exists (enrich_node w node). split; [by rewrite list_lookup_fmap, Hnode|].
    unfold enrich_node. fold (store_path node).
    rewrite (GetNarHashFromPath_Lstat _ _ _ Ht).
    unfold parseAppDetails. rewrite (ReadDir_dir _ _ _ Hes).
    unfold segments in Hseg. apply Nat.ltb_ge in Hseg. rewrite Hseg. simpl.
    intros key Hkey. unfold enrichment_keys in Hkey.
    repeat (apply elem_of_cons in Hkey as [->|Hkey]);
      [| |  |by apply elem_of_nil in Hkey];
      by simplify_map_eq.
Qed.

Lemma C2_missing_node_is_skipped_witness :
  conc.returns demo_world (conc.init demo_graph) ∧
  ∀ g', addNarHashToGraph_runs demo_world demo_graph g' →
    List.length (gographviz.Nodes g') = 3%nat ∧
    (∃ nodeK', gographviz.Nodes g' !! 1%nat = Some nodeK' ∧
       ∀ key, key ∈ enrichment_keys → gographviz.Attrs nodeK' !! key = None) ∧
    (∀ i node, i ≠ 1%nat → gographviz.Nodes demo_graph !! i = Some node →
       ∃ node', gographviz.Nodes g' !! i = Some node' ∧
         ∀ key, key ∈ enrichment_keys → is_Some (gographviz.Attrs node' !! key)).
Proof.
  apply (C2_missing_node_is_skipped demo_world demo_graph 1 (demo_node "gone-pkg-1.0")).
  - reflexivity.
  - reflexivity.
  - intros [|[|[|i]]] node Hi Hnode; try done; simpl in Hnode;
      injection Hnode as <-; (split; [|split]);
      [by eexists|by eexists|vm_compute; lia|by eexists|by eexists|vm_compute; lia].
  - intros key Hkey. unfold enrichment_keys in Hkey.
    repeat (apply elem_of_cons in Hkey as [->|Hkey]);
      [done..|by apply elem_of_nil in Hkey].
Defined.

(** C10. For every node on which both the hashing and [parseAppDetails]
    succeed, the [App] that was parsed has the empty string as its [Name],
    and in the graph the call leaves the node's attribute [name] is
    present with the empty string as its value. *)
Theorem C10_name_attribute_is_empty w g g' i node hash app :
  addNarHashToGraph_runs w g g' →
  gographviz.Nodes g !! i = Some node →
  GetNarHashFromPath w (store_path node) = Ok hash →
  parseAppDetails w (store_path node) = Ok app →
  Name app = EmptyString ∧
  ∃ node', gographviz.Nodes g' !! i = Some node' ∧
           gographviz.Attrs node' !! "name" = Some EmptyString.
Proof.
  intros ->%addNarHashToGraph_runs_iff Hnode Hhash Hparse.
  pose proof Hparse as (_ & _ & _ & Hname & _)%parseAppDetails_inv.
  split; [done|].
  exists (enrich_node w node). split; [simpl; by rewrite list_lookup_fmap, Hnode|].
  unfold enrich_node. fold (store_path node). rewrite Hhash, Hparse, Hname.
  by simplify_map_eq.
Qed.

Lemma demo_mytool_hash :
  GetNarHashFromPath demo_world (store_path (demo_node "xyz123-mytool-1.2.3"))
  = Ok "0l0rfaa0af7r4ly3nhbldzzrpz45dlzk5dmxsy0djnh7gnp2bjy4".
Proof. vm_compute. reflexivity. Qed.

Lemma demo_mytool_parse :
  parseAppDetails demo_world (store_path (demo_node "xyz123-mytool-1.2.3"))
  = Ok {| Name := EmptyString; Version := "1.2.3";
          AppType := sbom.Purpose_EXECUTABLE; ResultHash := EmptyString;
          ResultDigest := "xyz123"; BinaryHash := EmptyString |}.
Proof. vm_compute. reflexivity. Qed.

Lemma C10_name_attribute_is_empty_witness :
  ∃ s node',
    conc.run_schedule demo_world (conc.init demo_graph) schedule_in_order = Some s ∧
    conc.nodes s !! 0%nat = Some node' ∧
    gographviz.Attrs node' !! "name" = Some EmptyString.
Proof.
  destruct demo_run_in_order as (s & Hrun & Hm & _).
  destruct (C10_name_attribute_is_empty demo_world demo_graph
              {| gographviz.Nodes := conc.nodes s;
                 gographviz.Edges := gographviz.Edges demo_graph |}
              0 (demo_node "xyz123-mytool-1.2.3") _ _
              (ex_intro _ schedule_in_order
                 (ex_intro _ s (conj (run_schedule_sound _ _ _ _ Hrun)
                                     (conj Hm eq_refl))))
              eq_refl demo_mytool_hash demo_mytool_parse)
    as (_ & node' & Hnode' & Hattr).
  exists s, node'. exact (conj Hrun (conj Hnode' Hattr)).
Defined.

Lemma C5_app_type_classification_witness :
  parseAppDetails demo_world "/nix/store/k2-both-3" = Ok both_app ∧
  AppType both_app = sbom.Purpose_EXECUTABLE.
Proof.
  split; [reflexivity|].
  refine (proj2 (proj2 (proj2
    (C5_app_type_classification demo_world "/nix/store/k2-both-3" both_app
       [("manifest.json", IFile false manifest_text);
        ("bin", IDir [("tool", IFile true "x")])] eq_refl eq_refl))) _ _);
    by apply (bool_decide_unpack _).
Defined.

(** ** Content hashing *)

#[global] Instance entry_le_total : Total nar.entry_le.
Proof. intros a b. unfold nar.entry_le. apply (total String.le). Qed.

#[global] Instance entry_le_trans : Transitive nar.entry_le.
Proof. intros a b c. unfold nar.entry_le. apply (transitivity (R:=String.le)). Qed.

Lemma node_dir es :
  nar.node (IDir es)
  = nar.str "(" +:+ nar.str "type" +:+ nar.str "directory"
      +:+ String.concat EmptyString
            (nar.entry <$> merge_sort nar.entry_le (nar.named es))
      +:+ nar.str ")".
Proof.
  cbn [nar.node]. do 7 f_equal. unfold nar.named.
  induction es as [|[n t] es IH]; [done|]. cbn [fmap list_fmap fst snd].
  by rewrite <-IH.
Qed.

Lemma named_fst es : (nar.named es).*1 = es.*1.
Proof. unfold nar.named. rewrite <-list_fmap_compose. done. Qed.

Lemma unique_by_name {A} (l : list (string * A)) a b :
  NoDup l.*1 → a ∈ l → b ∈ l → a.1 = b.1 → a = b.
Proof.
  induction l as [|c l IH]; intros Hnd Ha Hb Heq.
  - by apply elem_of_nil in Ha.
  - rewrite fmap_cons in Hnd. apply NoDup_cons in Hnd as [Hc Hnd].
    apply elem_of_cons in Ha as [->|Ha], Hb as [->|Hb]; [done| | |by apply IH].
    + exfalso. apply Hc. rewrite Heq. by apply list_elem_of_fmap_2.
    + exfalso. apply Hc. rewrite <-Heq. by apply list_elem_of_fmap_2.
Qed.

(** Sorting by name forgets the order on disk. *)
Lemma sorted_named_perm l1 l2 :
  NoDup l1.*1 → l1 ≡ₚ l2 →
  merge_sort nar.entry_le l1 = merge_sort nar.entry_le l2.
Proof.
  intros Hnd Hperm.
  apply (Sorted_unique_strong nar.entry_le).
  - intros x1 x2 Hx1 Hx2 H12 H21.
    rewrite merge_sort_Permutation in Hx1, Hx2. rewrite <-Hperm in Hx2.
    apply (unique_by_name l1); [done..|].
    by apply (anti_symm String.le).
  - apply Sorted_merge_sort; apply _.
  - apply Sorted_merge_sort; apply _.
  - by rewrite !merge_sort_Permutation.
Qed.

Lemma node_same_tree t1 t2 : same_tree t1 t2 → nar.node t1 = nar.node t2.
Proof.
  revert t1 t2.
  apply (same_tree_mut (λ t1 t2, nar.node t1 = nar.node t2)
                       (λ l1 l2, nar.named l1 = nar.named l2)).
  - done.
  - done.
  - intros es1 es1' es2 Hnd Hperm _ IH. rewrite !node_dir. do 6 f_equal.
    rewrite <-IH. apply sorted_named_perm.
    + by rewrite named_fst.
    + unfold nar.named. by rewrite Hperm.
  - done.
  - intros n t1 t2 l1 l2 _ IHt _ IHl. unfold nar.named in *.
    cbn [fmap list_fmap fst snd]. by rewrite IHt, IHl.
Qed.

(** C9. The digest of [GetNarHashFromPath] depends on the object at the
    path only: two calls that find the same object there return the same
    result; and two trees with the same structure and contents, whatever
    the order of their entries on disk, both hash, to the same digest. *)
Theorem C9_content_hash_deterministic :
  (∀ w w' path,
     os.Lstat w path = os.Lstat w' path →
     GetNarHashFromPath w path = GetNarHashFromPath w' path) ∧
  (∀ w1 w2 path1 path2 t1 t2,
     os.resolve w1 false path1 = inr t1 →
     os.resolve w2 false path2 = inr t2 →
     same_tree t1 t2 →
     ∃ digest, GetNarHashFromPath w1 path1 = Ok digest ∧
               GetNarHashFromPath w2 path2 = Ok digest).
Proof.
  split.
  - intros w w' path H. unfold GetNarHashFromPath, nar.DumpPath. by rewrite H.
  - intros w1 w2 path1 path2 t1 t2 H1 H2 Hsame.
    rewrite (GetNarHashFromPath_Lstat _ _ _ H1), (GetNarHashFromPath_Lstat _ _ _ H2).
    unfold nar.archive. rewrite (node_same_tree _ _ Hsame). by eexists.
Qed.

Lemma demo_same_tree : same_tree store_mytool store_mytool_reordered.
Proof.
  apply (same_dir _ [("bin", IDir [("mytool", IFile true mytool_bytes)]);
                     ("share", IDir [])]).
  - by apply (bool_decide_unpack _).
  - apply perm_swap.
  - repeat constructor.
    apply (same_dir _ [("mytool", IFile true mytool_bytes)]).
    + by apply (bool_decide_unpack _).
    + done.
    + repeat constructor.
    + apply (same_dir _ []); [constructor|done|constructor].
Qed.

Lemma C9_content_hash_deterministic_witness :
  ∃ digest,
    GetNarHashFromPath demo_world "/nix/store/xyz123-mytool-1.2.3" = Ok digest ∧
    GetNarHashFromPath demo_world "/nix/store/r9-mytool-1.2.3" = Ok digest.
Proof.
  exact (proj2 C9_content_hash_deterministic demo_world demo_world
           "/nix/store/xyz123-mytool-1.2.3" "/nix/store/r9-mytool-1.2.3"
           store_mytool store_mytool_reordered eq_refl eq_refl demo_same_tree).
Defined.

(** * Further properties *)

(** ** Strings *)

Lemma mem_app c s t :
  strings.mem c (s +:+ t) = strings.mem c s || strings.mem c t.
Proof.
  induction s as [|d s IH]; [done|]. rewrite append_cons. simpl.
  by destruct (Ascii.eqb c d).
Qed.

Lemma length_append s t :
  String.length (s +:+ t) = (String.length s + String.length t)%nat.
Proof. induction s as [|c s IH]; [done|]. rewrite append_cons. simpl. lia. Qed.

Lemma TrimLeft_free s cutset :
  (∀ c, strings.mem c cutset = true → strings.mem c s = false) →
  strings.TrimLeft s cutset = s.
Proof.
  destruct s as [|d s]; [done|]. intros H. simpl.
  destruct (strings.mem d cutset) eqn:Hd; [|done].
  specialize (H d Hd). simpl in H. by rewrite Ascii.eqb_refl in H.
Qed.

Lemma TrimRight_free s cutset :
  (∀ c, strings.mem c cutset = true → strings.mem c s = false) →
  strings.TrimRight s cutset = s.
Proof.
  induction s as [|d s IH]; [done|]. intros H. simpl.
  assert (strings.mem d cutset = false) as Hd.
  { destruct (strings.mem d cutset) eqn:Hd; [|done].
    specialize (H d Hd). simpl in H. by rewrite Ascii.eqb_refl in H. }
  rewrite IH, Hd; [by destruct s|].
  intros c Hc. specialize (H c Hc). simpl in H. by destruct (Ascii.eqb c d).
Qed.

Lemma TrimRight_app s t cutset :
  strings.TrimRight t cutset ≠ EmptyString →
  strings.TrimRight (s +:+ t) cutset = s +:+ strings.TrimRight t cutset.
Proof.
  intros Ht. induction s as [|d s IH]; [done|].
  rewrite !append_cons. simpl. rewrite IH.
  destruct (s +:+ strings.TrimRight t cutset) eqn:E; [|done].
  destruct s; [|done]. by destruct Ht.
Qed.

Lemma TrimRight_cutset s cutset c :
  strings.mem c cutset = true →
  strings.TrimRight (s +:+ String c EmptyString) cutset = strings.TrimRight s cutset.
Proof.
  intros Hc. induction s as [|d s IH].
  - change (EmptyString +:+ String c EmptyString) with (String c EmptyString).
    simpl. by rewrite Hc.
  - rewrite append_cons. simpl. by rewrite IH.
Qed.

Lemma TrimRight_length s cutset :
  (String.length (strings.TrimRight s cutset) ≤ String.length s)%nat.
Proof.
  induction s as [|d s IH]; simpl; [lia|].
  destruct (strings.TrimRight s cutset); simpl in *; [|lia].
  destruct (strings.mem d cutset); simpl; lia.
Qed.

Lemma TrimLeft_length s cutset :
  (String.length (strings.TrimLeft s cutset) ≤ String.length s)%nat.
Proof.
  induction s as [|d s IH]; simpl; [lia|].
  destruct (strings.mem d cutset); simpl; lia.
Qed.

Lemma prefix_cons a p c s :
  String.prefix (String a p) (String c s)
  = if ascii_dec a c then String.prefix p s else false.
Proof. reflexivity. Qed.

Lemma escaped_quote_unfold :
  backslash +:+ dquote = String "\"%char (String quote_char EmptyString).
Proof. reflexivity. Qed.

(** A match of backslash-quote starts with a backslash that a double
    quote follows. *)
Lemma prefix_escaped_quote c s :
  String.prefix (backslash +:+ dquote) (String c s) = true →
  c = "\"%char ∧ ∃ s', s = String quote_char s'.
Proof.
  rewrite escaped_quote_unfold, prefix_cons.
  destruct (ascii_dec _ c) as [<-|]; [|done].
  destruct s as [|d s]; [done|]. rewrite prefix_cons.
  destruct (ascii_dec _ d) as [<-|]; [|done]. eauto.
Qed.

(** Where the string has no double quote there is nothing to replace. *)
Lemma replace_quote_free s :
  quote_free s →
  strings.replace_from (backslash +:+ dquote) dquote 0 s = s.
Proof.
  unfold quote_free. induction s as [|c s IH]; [done|]. intros H.
  cbn [strings.mem] in H. destruct (Ascii.eqb quote_char c) eqn:Hc; [done|].
  cbn [strings.replace_from].
  destruct (String.prefix (backslash +:+ dquote) (String c s)) eqn:Hp.
  - apply prefix_escaped_quote in Hp as [_ [s' ->]].
    cbn [strings.mem] in H. by rewrite Ascii.eqb_refl in H.
  - by rewrite IH.
Qed.

Lemma mem_singleton c q : strings.mem c (String q EmptyString) = true → c = q.
Proof. cbn [strings.mem]. by destruct (Ascii.eqb_spec c q). Qed.

(** ** [CleanNameFromGraph] in general *)

(** Trimming takes the wrapping quotes off a quote-free content. *)
Lemma Trim_quoted s : quote_free s → strings.Trim (quoted s) dquote = s.
Proof.
  intros Hs. destruct s as [|d s]; [reflexivity|].
  unfold strings.Trim, quoted.
  assert (∀ c, strings.mem c dquote = true → strings.mem c (String d s) = false)
    as Hfree.
  { intros c Hc. apply (mem_singleton c quote_char) in Hc. by subst c. }
  change (dquote +:+ String d s +:+ dquote)
    with (String quote_char (String d (s +:+ dquote))).
  assert (strings.mem d dquote = false) as Hd.
  { destruct (strings.mem d dquote) eqn:Hd; [|done].
    specialize (Hfree d Hd). cbn [strings.mem] in Hfree.
    by rewrite Ascii.eqb_refl in Hfree. }
  cbn [strings.TrimLeft]. change (strings.mem quote_char dquote) with true.
  cbv iota. rewrite Hd.
  change (String d (s +:+ dquote)) with (String d s +:+ String quote_char EmptyString).
  rewrite TrimRight_cutset by done. by rewrite TrimRight_free.
Qed.

(** X1. A label in double quotes whose content has no double quote is
    cleaned to its content. *)
Theorem clean_quoted_label s :
  quote_free s → CleanNameFromGraph (quoted s) = s.
Proof.
  intros Hs. unfold CleanNameFromGraph, strings.ReplaceAll.
  rewrite Trim_quoted by done. by apply replace_quote_free.
Qed.

Lemma clean_quoted_label_witness :
  CleanNameFromGraph (quoted "xyz123-mytool-1.2.3") = "xyz123-mytool-1.2.3".
Proof. apply clean_quoted_label. reflexivity. Defined.

Lemma replace_from_length skip s :
  (String.length (strings.replace_from (backslash +:+ dquote) dquote skip s)
   ≤ String.length s)%nat.
Proof.
  revert skip. induction s as [|c s IH]; intros skip; [done|].
  cbn [strings.replace_from]. destruct skip as [|k].
  - destruct (String.prefix _ _).
    + specialize (IH (String.length (backslash +:+ dquote) - 1)%nat).
      change (dquote +:+ ?x) with (String quote_char x). simpl in *. lia.
    + specialize (IH O). simpl. lia.
  - specialize (IH k). simpl. lia.
Qed.

(** X2. Cleaning never makes a label longer. *)
Theorem clean_never_longer s :
  (String.length (CleanNameFromGraph s) ≤ String.length s)%nat.
Proof.
  unfold CleanNameFromGraph, strings.Trim, strings.ReplaceAll.
  pose proof (replace_from_length 0
    (strings.TrimRight (strings.TrimLeft s dquote) dquote)).
  pose proof (TrimRight_length (strings.TrimLeft s dquote) dquote).
  pose proof (TrimLeft_length s dquote). lia.
Qed.

Lemma quote_free_cons c s :
  quote_free (String c s) ↔ c ≠ quote_char ∧ quote_free s.
Proof.
  unfold quote_free. cbn [strings.mem].
  destruct (Ascii.eqb_spec quote_char c) as [<-|Hne].
  - split; [done|]. by intros [? _].
  - split; [|by intros [_ ?]]. intros H. split; [congruence|done].
Qed.

Lemma replace_unescape a b :
  quote_free a → quote_free b →
  strings.replace_from (backslash +:+ dquote) dquote 0
    (a +:+ String "\"%char (String quote_char b))
  = a +:+ String quote_char b.
Proof.
  intros Ha Hb. induction a as [|c a IH].
  - change (EmptyString +:+ ?x) with x.
    cbn [strings.replace_from]. rewrite escaped_quote_unfold, !prefix_cons.
    destruct (ascii_dec "\"%char "\"%char); [|done].
    destruct (ascii_dec quote_char quote_char); [|done].
    rewrite prefix_empty. cbn [String.length Nat.sub].
    cbn [strings.replace_from].
    change (dquote +:+ ?x) with (String quote_char x).
    f_equal. rewrite <-escaped_quote_unfold. by apply replace_quote_free.
  - apply quote_free_cons in Ha as [Hc Ha]. rewrite !append_cons.
    cbn [strings.replace_from].
    destruct (String.prefix _ _) eqn:Hp.
    + apply prefix_escaped_quote in Hp as [_ [s' Hs']].
      destruct a as [|d a].
      * by injection Hs'.
      * rewrite append_cons in Hs'. injection Hs' as -> _.
        by apply quote_free_cons in Ha as [? _].
    + by rewrite IH.
Qed.

(** X3. Inside a quoted label, an escaped quote between two quote-free
    parts is unescaped when something follows it. *)
Theorem clean_unescapes_inner_quote a b :
  quote_free a → quote_free b → b ≠ EmptyString →
  CleanNameFromGraph (quoted (a +:+ (backslash +:+ dquote) +:+ b))
  = a +:+ dquote +:+ b.
Proof.
  intros Ha Hb Hne.
  unfold CleanNameFromGraph, strings.Trim, strings.ReplaceAll, quoted.
  rewrite escaped_quote_unfold.
  change (String "\"%char (String quote_char EmptyString) +:+ b)
    with (String "\"%char (String quote_char b)).
  set (x := a +:+ String "\"%char (String quote_char b)).
  assert (∀ c, strings.mem c dquote = true → strings.mem c b = false) as Hfree.
  { intros c Hc. apply (mem_singleton c quote_char) in Hc. by subst c. }
  assert (strings.TrimRight x dquote = x) as Hright.
  { unfold x. rewrite TrimRight_app.
    - f_equal.
      change (String "\"%char (String quote_char b))
        with (String "\"%char (String quote_char EmptyString) +:+ b).
      rewrite TrimRight_app; rewrite TrimRight_free by done; [done|done].
    - change (String "\"%char (String quote_char b))
        with (String "\"%char (String quote_char EmptyString) +:+ b).
      rewrite TrimRight_app; rewrite TrimRight_free by done; [|done].
      done. }
  assert (strings.TrimLeft (x +:+ dquote) dquote = x +:+ dquote) as Hleft.
  { unfold x. destruct a as [|d a].
    - reflexivity.
    - apply quote_free_cons in Ha as [Hd _]. rewrite !append_cons.
      cbn [strings.TrimLeft]. unfold dquote at 1. cbn [strings.mem].
      fold quote_char. by destruct (Ascii.eqb_spec d quote_char). }
  change (dquote +:+ x +:+ dquote) with (String quote_char (x +:+ dquote)).
  cbn [strings.TrimLeft]. change (strings.mem quote_char dquote) with true.
  cbv iota. rewrite Hleft.
  change (x +:+ dquote) with (x +:+ String quote_char EmptyString).
  rewrite TrimRight_cutset by done. rewrite Hright.
  unfold x. rewrite <-escaped_quote_unfold at 1.
  change (dquote +:+ b) with (String quote_char b).
  by apply replace_unescape.
Qed.

Lemma clean_unescapes_inner_quote_witness :
  CleanNameFromGraph (quoted ("a" +:+ (backslash +:+ dquote) +:+ "b"))
  = "a" +:+ dquote +:+ "b".
Proof. by apply clean_unescapes_inner_quote. Defined.

(** X4. An escaped quote at the very end of a quoted label is lost: the
    trimming takes it for a wrapping quote, and its backslash stays. *)
Theorem clean_loses_final_escaped_quote a :
  quote_free a →
  CleanNameFromGraph (quoted (a +:+ backslash +:+ dquote)) = a +:+ backslash.
Proof.
  intros Ha.
  unfold CleanNameFromGraph, strings.Trim, strings.ReplaceAll, quoted.
  assert (quote_free (a +:+ backslash)) as Hab.
  { unfold quote_free in *. by rewrite mem_app, Ha. }
  assert (∀ c, strings.mem c dquote = true →
               strings.mem c (a +:+ backslash) = false) as Hfree.
  { intros c Hc. apply (mem_singleton c quote_char) in Hc. by subst c. }
  assert (dquote +:+ (a +:+ backslash +:+ dquote) +:+ dquote
          = String quote_char
              (((a +:+ backslash) +:+ String quote_char EmptyString)
                 +:+ String quote_char EmptyString)) as ->.
  { by rewrite !append_assoc. }
  cbn [strings.TrimLeft]. change (strings.mem quote_char dquote) with true.
  cbv iota.
  assert (strings.TrimLeft
            (((a +:+ backslash) +:+ String quote_char EmptyString)
               +:+ String quote_char EmptyString) dquote
          = ((a +:+ backslash) +:+ String quote_char EmptyString)
               +:+ String quote_char EmptyString) as ->.
  { destruct a as [|d a]; [reflexivity|].
    apply quote_free_cons in Ha as [Hd _]. rewrite !append_cons.
    cbn [strings.TrimLeft]. unfold dquote at 1. cbn [strings.mem].
    fold quote_char. by destruct (Ascii.eqb_spec d quote_char). }
  rewrite !TrimRight_cutset by done.
  rewrite TrimRight_free by done. by apply replace_quote_free.
Qed.

Lemma clean_loses_final_escaped_quote_witness :
  CleanNameFromGraph (quoted ("pkg" +:+ backslash +:+ dquote)) = "pkg" +:+ backslash.
Proof. by apply clean_loses_final_escaped_quote. Defined.

(** ** [strings.Split] on hyphens and [parseAppDetails] *)

Lemma split_from_hyphen cur a b :
  strings.split_from "-" 0 cur (a +:+ "-" +:+ b)
  = strings.split_from "-" 0 cur a ++ strings.split_from "-" 0 EmptyString b.
Proof.
  revert cur. induction a as [|c a IH]; intros cur.
  { change (EmptyString +:+ "-" +:+ b) with (String "-" b).
    cbn. by rewrite prefix_empty. }
  rewrite append_cons. cbn [strings.split_from String.prefix String.length].
  destruct (ascii_dec "-" c); simpl.
  - by rewrite !prefix_empty, IH.
  - apply IH.
Qed.

Lemma split_from_hyphen_free cur s :
  hyphen_free s → strings.split_from "-" 0 cur s = [cur +:+ s].
Proof.
  unfold hyphen_free. revert cur. induction s as [|c s IH]; intros cur H.
  - by rewrite append_empty_r.
  - cbn [strings.mem] in H. cbn [strings.split_from String.prefix].
    destruct (ascii_dec "-" c) as [<-|Hne]; [done|].
    destruct (Ascii.eqb "-" c); [done|].
    rewrite IH by done. by rewrite append_assoc.
Qed.

Lemma split_from_nonempty sep skip cur s : strings.split_from sep skip cur s ≠ [].
Proof.
  revert skip cur. induction s as [|c s IH]; intros skip cur; [done|].
  cbn [strings.split_from]. destruct skip; [|apply IH].
  destruct (String.prefix sep (String c s)); [done|apply IH].
Qed.

Lemma prefix_app p s : String.prefix p (p +:+ s) = true.
Proof.
  induction p as [|c p IH]; [apply prefix_empty|].
  rewrite append_cons, prefix_cons. by destruct (ascii_dec c c).
Qed.

Lemma drop_app p s : strings.drop (String.length p) (p +:+ s) = s.
Proof. induction p as [|c p IH]; [by destruct s|]. by rewrite append_cons. Qed.

Lemma TrimPrefix_app p s : strings.TrimPrefix (p +:+ s) p = s.
Proof.
  unfold strings.TrimPrefix, strings.HasPrefix. by rewrite prefix_app, drop_app.
Qed.

(** The segments of a store path: the digest, the segments of the name,
    the version. *)
Lemma segments_store_path d mid v :
  hyphen_free d → hyphen_free v →
  segments ("/nix/store/" +:+ d +:+ "-" +:+ mid +:+ "-" +:+ v)
  = d :: strings.Split mid "-" ++ [v].
Proof.
  intros Hd Hv. unfold segments, strings.Split.
  rewrite TrimPrefix_app, !split_from_hyphen.
  rewrite (split_from_hyphen_free _ d), (split_from_hyphen_free _ v) by done.
  done.
Qed.

Lemma nth_last_snoc {A} (l : list A) (x d : A) :
  nth (List.length (l ++ [x]) - 1) (l ++ [x]) d = x.
Proof.
  rewrite length_app. simpl. replace (List.length l + 1 - 1)%nat with (List.length l) by lia.
  rewrite app_nth2 by lia. by rewrite Nat.sub_diag.
Qed.

(** A store path has at least three segments, the digest first and the
    version last. *)
Lemma store_path_first_last d mid v :
  hyphen_free d → hyphen_free v →
  let parts := segments ("/nix/store/" +:+ d +:+ "-" +:+ mid +:+ "-" +:+ v) in
  (List.length parts <? 3)%nat = false ∧
  nth 0 parts EmptyString = d ∧
  nth (List.length parts - 1) parts EmptyString = v.
Proof.
  intros Hd Hv. cbv zeta. rewrite segments_store_path by done.
  pose proof (split_from_nonempty "-" 0 EmptyString mid) as Hne.
  fold (strings.Split mid "-") in Hne.
  split; [|split; [done|]].
  - apply Nat.ltb_ge. simpl. rewrite length_app. simpl.
    destruct (strings.Split mid "-"); [done|simpl; lia].
  - change (d :: strings.Split mid "-" ++ [v])
      with ((d :: strings.Split mid "-") ++ [v]).
    apply nth_last_snoc.
Qed.

(** X5. On a listable store path [digest-name-version], where the name may
    itself hold hyphens but the digest and the version do not,
    [parseAppDetails] returns the digest as ResultDigest, the version as
    Version, the type found in the listing, and leaves Name, ResultHash
    and BinaryHash empty. *)
Theorem parse_store_path_fields w d mid v fs :
  hyphen_free d → hyphen_free v →
  os.ReadDir w ("/nix/store/" +:+ d +:+ "-" +:+ mid +:+ "-" +:+ v) = Ok fs →
  parseAppDetails w ("/nix/store/" +:+ d +:+ "-" +:+ mid +:+ "-" +:+ v)
  = Ok {| Name := EmptyString; Version := v; AppType := findAppType fs;
          ResultHash := EmptyString; ResultDigest := d;
          BinaryHash := EmptyString |}.
Proof.
  intros Hd Hv Hfs. unfold parseAppDetails. rewrite Hfs.
  fold (segments ("/nix/store/" +:+ d +:+ "-" +:+ mid +:+ "-" +:+ v)).
  destruct (store_path_first_last d mid v Hd Hv) as (-> & -> & ->). done.
Qed.

Lemma parse_store_path_fields_witness :
  parseAppDetails demo_world "/nix/store/abc-img-2.0"
  = Ok {| Name := EmptyString; Version := "2.0";
          AppType := sbom.Purpose_CONTAINER;
          ResultHash := EmptyString; ResultDigest := "abc";
          BinaryHash := EmptyString |}.
Proof.
  exact (parse_store_path_fields demo_world "abc" "img" "2.0" _ eq_refl eq_refl eq_refl).
Defined.

(** ** [findResultBinary] and [artifactHash] in general *)

(** The first entry of a listing has the least name. *)
Lemma sorted_head_least es f fs :
  merge_sort os.name_le (os.entry_of <$> es) = f :: fs →
  os.Name f ∈ es.*1 ∧ ∀ m, m ∈ es.*1 → String.le (os.Name f) m.
Proof.
  intros Hsort.
  pose proof (StronglySorted_merge_sort os.name_le (os.entry_of <$> es)) as Hs.
  rewrite Hsort in Hs. apply StronglySorted_inv in Hs as [_ Hall].
  split.
  - apply sorted_names_elem. rewrite Hsort. left.
  - intros m Hm. apply sorted_names_elem in Hm. rewrite Hsort in Hm.
    rewrite fmap_cons in Hm. apply elem_of_cons in Hm as [->|Hm]; [done|].
    apply list_elem_of_fmap in Hm as (f' & -> & Hf').
    rewrite Forall_forall in Hall. by apply Hall.
Qed.

Lemma sorted_nonempty es :
  es ≠ [] → ∃ f fs, merge_sort os.name_le (os.entry_of <$> es) = f :: fs.
Proof.
  intros Hne. destruct (merge_sort os.name_le (os.entry_of <$> es)) as [|f fs] eqn:E.
  - pose proof (merge_sort_Permutation os.name_le (os.entry_of <$> es)) as Hp.
    rewrite E in Hp. apply Permutation_nil in Hp.
    apply fmap_nil_inv in Hp. done.
  - eauto.
Qed.

(** X6. [findResultBinary] returns the least name, in byte order, among
    the entries of the [bin] directory, whatever kind of object it names;
    on an empty [bin] it fails with [no result binary found]. *)
Theorem findResultBinary_least_name w output symlink bes :
  os.resolve w true (output +:+ symlink +:+ "/bin") = inr (IDir bes) →
  (bes = [] ∧
   findResultBinary w output symlink = Err (errorString "no result binary found")) ∨
  (∃ n, findResultBinary w output symlink = Ok n ∧
        n ∈ bes.*1 ∧ ∀ m, m ∈ bes.*1 → String.le n m).
Proof.
  intros Hbin. unfold findResultBinary. rewrite (ReadDir_dir _ _ _ Hbin).
  destruct bes as [|e bes]; [by left|]. right.
  destruct (sorted_nonempty (e :: bes)) as (f & fs & Hsort); [done|].
  rewrite Hsort. exists (os.Name f). split; [done|].
  by eapply sorted_head_least.
Qed.

Lemma findResultBinary_least_name_witness :
  ∃ n, findResultBinary demo_world "/nix/store/" "k2-both-3" = Ok n ∧
       n ∈ [("tool", IFile true "x")].*1 ∧
       ∀ m, m ∈ [("tool", IFile true "x")].*1 → String.le n m.
Proof.
  destruct (findResultBinary_least_name demo_world "/nix/store/" "k2-both-3"
              [("tool", IFile true "x")] eq_refl) as [[H _]|H]; [done|exact H].
Defined.

Lemma bin_child_path a b n :
  ((a +:+ b) +:+ "/" +:+ "bin") +:+ "/" +:+ n = a +:+ b +:+ "/bin/" +:+ n.
Proof. by rewrite !append_assoc. Qed.

Lemma bin_path a b : (a +:+ b) +:+ "/" +:+ "bin" = a +:+ b +:+ "/bin".
Proof. by rewrite append_assoc. Qed.

Section artifactHash_routes.
Variable json_Unmarshal : string → result imgv1.Manifest.

(** [artifactHash] and [findAppType] scan a listing alike. *)
Lemma artifactHash_loop_by_type w output symlink fs :
  artifactHash_loop json_Unmarshal w output symlink fs =
  match findAppType fs with
  | sbom.Purpose_UNKNOWN_PURPOSE => Ok EmptyString
  | sbom.Purpose_EXECUTABLE =>
      match findResultBinary w output symlink with
      | Err err => Err err
      | Ok binName => fileSHA256 w (output +:+ symlink +:+ "/bin/" +:+ binName)
      end
  | sbom.Purpose_CONTAINER =>
      match os.ReadFile w (output +:+ symlink +:+ "/manifest.json") with
      | Err err => Err err
      | Ok fbytes =>
          match json_Unmarshal fbytes with
          | Err err => Err err
          | Ok manifest =>
              Ok (strings.TrimPrefix (imgv1.Digest (imgv1.Config manifest)) "sha256:")
          end
      end
  end.
Proof.
  induction fs as [|f fs IH]; simpl; [done|].
  destruct (String.eqb (os.Name f) "bin").
  { destruct (findResultBinary _ _ _); [|done]. by destruct (fileSHA256 _ _). }
  by destruct (String.eqb (os.Name f) "manifest.json").
Qed.

(** X7. When the output directory has a [bin] directory, [artifactHash]
    looks at the entry of [bin] with the least name only, whether or not a
    [manifest.json] is there as well: a regular file gives the hex SHA-256
    of its bytes, a directory gives the error of reading a directory. *)
Theorem artifactHash_bin_route w output symlink es bes n t :
  os.resolve w true (output +:+ symlink) = inr (IDir es) →
  os.lookup_entry "bin" es = Some (IDir bes) →
  os.lookup_entry n bes = Some t →
  (∀ m, m ∈ bes.*1 → String.le n m) →
  plain_name n → is_link t = false →
  artifactHash json_Unmarshal w output symlink =
  match t with
  | IFile _ data => Ok (hex.EncodeToString (sha256.Sum256 data))
  | _ => Err (PathError "read" (output +:+ symlink +:+ "/bin/" +:+ n) EISDIR)
  end.
Proof.
  intros Hout Hbin Hn Hleast Hplain Hlink.
  pose proof (resolve_child w _ "bin" es (IDir bes) plain_bin eq_refl Hout Hbin)
    as Hbindir.
  pose proof (resolve_child w _ n bes t Hplain Hlink Hbindir Hn) as Hfile.
  rewrite bin_child_path in Hfile. rewrite bin_path in Hbindir.
  unfold artifactHash. rewrite (ReadDir_dir _ _ _ Hout).
  rewrite artifactHash_loop_bin;
    [|apply StronglySorted_merge_sort; apply _
     |apply sorted_names_elem; by eapply lookup_entry_elem].
  unfold findResultBinary. rewrite (ReadDir_dir _ _ _ Hbindir).
  destruct (sorted_nonempty bes) as (f & fs & Hsort); [by destruct bes|].
  rewrite Hsort. apply sorted_head_least in Hsort as [Hin Hleast'].
  assert (os.Name f = n) as ->.
  { apply (anti_symm String.le); [|apply Hleast; done].
    apply Hleast'. by eapply lookup_entry_elem. }
  unfold fileSHA256, os.Open. rewrite Hfile. by destruct t.
Qed.

(** An empty [bin] directory makes [artifactHash] fail with [no result
    binary found], also when a [manifest.json] is present. *)
Lemma artifactHash_empty_bin w output symlink es :
  os.resolve w true (output +:+ symlink) = inr (IDir es) →
  os.lookup_entry "bin" es = Some (IDir []) →
  artifactHash json_Unmarshal w output symlink
  = Err (errorString "no result binary found").
Proof.
  intros Hout Hbin.
  pose proof (resolve_child w _ "bin" es (IDir []) plain_bin eq_refl Hout Hbin)
    as Hbindir.
  rewrite bin_path in Hbindir.
  unfold artifactHash. rewrite (ReadDir_dir _ _ _ Hout).
  rewrite artifactHash_loop_bin;
    [|apply StronglySorted_merge_sort; apply _
     |apply sorted_names_elem; by eapply lookup_entry_elem].
  unfold findResultBinary. by rewrite (ReadDir_dir _ _ _ Hbindir).
Qed.

(** X8. With a [manifest.json] file and no [bin]: a config digest
    [sha256:h] gives [h]; a digest that does not start with [sha256:] is
    returned whole; an error of the unmarshalling is returned as it is. *)
Theorem artifactHash_manifest_route w output symlink es x fbytes :
  os.resolve w true (output +:+ symlink) = inr (IDir es) →
  "bin" ∉ es.*1 →
  os.lookup_entry "manifest.json" es = Some (IFile x fbytes) →
  (∀ m h, json_Unmarshal fbytes = Ok m →
          imgv1.Digest (imgv1.Config m) = "sha256:" +:+ h →
          artifactHash json_Unmarshal w output symlink = Ok h) ∧
  (∀ m, json_Unmarshal fbytes = Ok m →
        strings.HasPrefix (imgv1.Digest (imgv1.Config m)) "sha256:" = false →
        artifactHash json_Unmarshal w output symlink
        = Ok (imgv1.Digest (imgv1.Config m))) ∧
  (∀ e, json_Unmarshal fbytes = Err e →
        artifactHash json_Unmarshal w output symlink = Err e).
Proof.
  intros Hdir Hnb Hm.
  assert (artifactHash json_Unmarshal w output symlink =
          match json_Unmarshal fbytes with
          | Err err => Err err
          | Ok manifest =>
              Ok (strings.TrimPrefix (imgv1.Digest (imgv1.Config manifest)) "sha256:")
          end) as ->.
  { unfold artifactHash. rewrite (ReadDir_dir _ _ _ Hdir).
    rewrite artifactHash_loop_manifest;
      [|by rewrite sorted_names_elem
       |rewrite sorted_names_elem; by eapply lookup_entry_elem].
    pose proof (resolve_child w _ _ _ (IFile x fbytes) plain_manifest_json
                  eq_refl Hdir Hm) as Hf.
    rewrite append_assoc in Hf. unfold os.ReadFile.
    change ("/" +:+ "manifest.json") with "/manifest.json" in Hf.
    by rewrite Hf. }
  repeat split.
  - intros m h -> ->. by rewrite TrimPrefix_app.
  - intros m -> Hp. unfold strings.TrimPrefix. by rewrite Hp.
  - by intros e ->.
Qed.
End artifactHash_routes.

Lemma artifactHash_bin_route_witness :
  artifactHash demo_Unmarshal demo_world2 "/out/" "tools"
  = Ok (hex.EncodeToString (sha256.Sum256 "a")) ∧
  artifactHash demo_Unmarshal demo_world2 "/nix/store/" "g3-dirfirst-0.9"
  = Err (PathError "read" "/nix/store/g3-dirfirst-0.9/bin/a.d" EISDIR).
Proof.
  split.
  - refine (artifactHash_bin_route demo_Unmarshal demo_world2 "/out/" "tools"
              _ _ "aa" (IFile true "a") eq_refl eq_refl eq_refl _ _ eq_refl).
    + intros m Hm. apply (bool_decide_unpack _).
      revert m Hm. apply Forall_forall. by apply (bool_decide_unpack _).
    + by repeat split.
  - refine (artifactHash_bin_route demo_Unmarshal demo_world2 "/nix/store/"
              "g3-dirfirst-0.9" _ _ "a.d" (IDir []) eq_refl eq_refl eq_refl _ _ eq_refl).
    + intros m Hm. apply (bool_decide_unpack _).
      revert m Hm. apply Forall_forall. by apply (bool_decide_unpack _).
    + by repeat split.
Defined.

Lemma artifactHash_manifest_route_witness :
  artifactHash (Unmarshal_digest "sha256:0a1b") demo_world2 "/nix/store/" "j6-img-3"
  = Ok "0a1b" ∧
  artifactHash (Unmarshal_digest "sha512:0a1b") demo_world2 "/nix/store/" "j6-img-3"
  = Ok "sha512:0a1b" ∧
  artifactHash Unmarshal_fails demo_world2 "/nix/store/" "j6-img-3"
  = Err (errorString "unexpected end of JSON input").
Proof.
  assert ("bin" ∉ [("manifest.json", IFile false manifest_text)].*1) as Hnb
    by (by apply (bool_decide_unpack _)).
  split; [|split].
  - exact (proj1 (artifactHash_manifest_route (Unmarshal_digest "sha256:0a1b")
             demo_world2 "/nix/store/" "j6-img-3" _ _ _ eq_refl Hnb eq_refl)
             _ "0a1b" eq_refl eq_refl).
  - exact (proj1 (proj2 (artifactHash_manifest_route (Unmarshal_digest "sha512:0a1b")
             demo_world2 "/nix/store/" "j6-img-3" _ _ _ eq_refl Hnb eq_refl))
             _ eq_refl eq_refl).
  - exact (proj2 (proj2 (artifactHash_manifest_route Unmarshal_fails
             demo_world2 "/nix/store/" "j6-img-3" _ _ _ eq_refl Hnb eq_refl))
             _ eq_refl).
Defined.

(** ** [GetAppDetails] and [GetRuntimeClosureGraph] in general *)

Section closure_graph.
Variable json_Unmarshal : string → result imgv1.Manifest.
Variable Ast : Type.
Variable ParseString : string → result Ast.
Variable Analyse : Ast → gographviz.Graph → result gographviz.Graph.

(** X9. The output root has to be a symbolic link: when [output+symlink]
    names a directory or a file itself, [GetAppDetails] fails on the
    [readlink], and [GetRuntimeClosureGraph] returns that error without
    looking at the outcome of [nix-store]. *)
Theorem output_root_must_be_symlink w appName output symlink t :
  os.resolve w false (output +:+ symlink) = inr t →
  is_link t = false →
  GetAppDetails w output symlink
  = Err (errorString ("failed to read symlink: readlink "
                        +:+ (output +:+ symlink) +:+ ": invalid argument")) ∧
  GetRuntimeClosureGraph json_Unmarshal Ast ParseString Analyse
    w appName output symlink
  = Err (errorString ("failed to read symlink: readlink "
                        +:+ (output +:+ symlink) +:+ ": invalid argument")).
Proof.
  intros Hres Hlink.
  assert (GetAppDetails w output symlink
          = Err (errorString ("failed to read symlink: readlink "
                                +:+ (output +:+ symlink) +:+ ": invalid argument")))
    as H.
  { unfold GetAppDetails, os.Readlink. rewrite Hres. by destruct t. }
  split; [done|]. unfold GetRuntimeClosureGraph. by rewrite H.
Qed.

(** X10. Whatever [GetRuntimeClosureGraph] returns without error: the
    summary carries the name passed in and the version [0.0.0]; its
    ResultHash is the NAR hash of the link target, its ResultDigest the
    first segment of the target, its BinaryHash the result of
    [artifactHash]; the command succeeded, and the graph is the analysed
    graph after [addNarHashToGraph]. *)
Theorem closure_graph_success w appName output symlink app graph :
  GetRuntimeClosureGraph json_Unmarshal Ast ParseString Analyse
    w appName output symlink = Ok (app, graph) →
  Name app = appName ∧ Version app = "0.0.0" ∧
  ∃ target parsed ast g0,
    os.Readlink w (output +:+ symlink) = Ok target ∧
    GetNarHashFromPath w target = Ok (ResultHash app) ∧
    parseAppDetails w target = Ok parsed ∧
    AppType app = AppType parsed ∧
    ResultDigest app = nth 0 (segments target) EmptyString ∧
    ExitOk (run w "nix-store" ["-q"; "--graph"; output +:+ symlink]) = true ∧
    ParseString (Stdout (run w "nix-store" ["-q"; "--graph"; output +:+ symlink]))
      = Ok ast ∧
    Analyse ast gographviz.NewGraph = Ok g0 ∧
    graph = addNarHashToGraph w g0 ∧
    artifactHash json_Unmarshal w output symlink = Ok (BinaryHash app).
Proof.
  unfold GetRuntimeClosureGraph, GetAppDetails.
  destruct (os.Readlink w (output +:+ symlink)) as [target|] eqn:Hlink; [|done].
  destruct (GetNarHashFromPath w target) as [hash|] eqn:Hhash; [|done].
  destruct (parseAppDetails w target) as [parsed|] eqn:Hparse; [|done].
  destruct (ExitOk _) eqn:Hexit; [|done]. cbn [negb].
  destruct (ParseString _) as [ast|] eqn:Hast; [|done].
  destruct (Analyse ast _) as [g0|] eqn:Hg0; [|done].
  destruct (artifactHash _ _ _ _) as [bh|] eqn:Hbh; [|done].
  intros [= <- <-]. cbn. repeat split.
  exists target, parsed, ast, g0. repeat split; try done.
  apply parseAppDetails_inv in Hparse as (_ & _ & _ & _ & _ & _ & ->). done.
Qed.

(** X11. When the link target and the output root list the same
    directory, the summary's type tells which artifact hash it carries:
    an Unknown type comes with an empty BinaryHash, a Container type with
    the manifest's config digest without its [sha256:] prefix, an
    Executable type with the hash of the binary [findResultBinary]
    names. *)
Theorem binary_hash_follows_app_type w appName output symlink app graph target es :
  GetRuntimeClosureGraph json_Unmarshal Ast ParseString Analyse
    w appName output symlink = Ok (app, graph) →
  os.Readlink w (output +:+ symlink) = Ok target →
  os.resolve w true target = inr (IDir es) →
  os.resolve w true (output +:+ symlink) = inr (IDir es) →
  match AppType app with
  | sbom.Purpose_UNKNOWN_PURPOSE => BinaryHash app = EmptyString
  | sbom.Purpose_CONTAINER =>
      ∃ fbytes manifest,
        os.ReadFile w (output +:+ symlink +:+ "/manifest.json") = Ok fbytes ∧
        json_Unmarshal fbytes = Ok manifest ∧
        BinaryHash app
        = strings.TrimPrefix (imgv1.Digest (imgv1.Config manifest)) "sha256:"
  | sbom.Purpose_EXECUTABLE =>
      ∃ binName,
        findResultBinary w output symlink = Ok binName ∧
        fileSHA256 w (output +:+ symlink +:+ "/bin/" +:+ binName)
        = Ok (BinaryHash app)
  end.
Proof.
  intros Hok Hlink Htarget Hout. revert Hok.
  unfold GetRuntimeClosureGraph, GetAppDetails. rewrite Hlink.
  destruct (GetNarHashFromPath w target) as [hash|]; [|done].
  destruct (parseAppDetails w target) as [parsed|] eqn:Hparse; [|done].
  destruct (ExitOk _); [|done]. cbn [negb].
  destruct (ParseString _) as [ast|]; [|done].
  destruct (Analyse ast _) as [g0|]; [|done].
  destruct (artifactHash _ _ _ _) as [bh|] eqn:Hbh; [|done].
  intros [= <- <-]. cbn [AppType BinaryHash set_BinaryHash set_Version set_Name
                          set_ResultHash].
  apply parseAppDetails_inv in Hparse as (fs & Hfs & _ & _ & -> & _).
  rewrite (ReadDir_dir _ _ _ Htarget) in Hfs. injection Hfs as <-.
  unfold artifactHash in Hbh. rewrite (ReadDir_dir _ _ _ Hout) in Hbh.
  rewrite artifactHash_loop_by_type in Hbh.
  destruct (findAppType _).
  - by injection Hbh.
  - destruct (findResultBinary w output symlink) as [binName|]; [|done]. eauto.
  - destruct (os.ReadFile w _) as [fbytes|]; [|done].
    destruct (json_Unmarshal fbytes) as [manifest|] eqn:Hj; [|done].
    injection Hbh as <-. eauto.
Qed.
End closure_graph.

Lemma output_root_must_be_symlink_witness :
  GetRuntimeClosureGraph demo_Unmarshal string demo_ParseString demo_Analyse
    demo_world "mytool" "/nix/store/" "xyz123-mytool-1.2.3"
  = Err (errorString
           "failed to read symlink: readlink /nix/store/xyz123-mytool-1.2.3: invalid argument").
Proof.
  exact (proj2 (output_root_must_be_symlink demo_Unmarshal string demo_ParseString
                  demo_Analyse demo_world "mytool" "/nix/store/"
                  "xyz123-mytool-1.2.3" store_mytool eq_refl eq_refl)).
Defined.

(** [GetRuntimeClosureGraph] succeeds on the output [/out/docs] of the
    first store, which has neither marker. *)
Lemma demo_docs_closure :
  ∃ app graph,
    GetRuntimeClosureGraph demo_Unmarshal string demo_ParseString demo_Analyse
      demo_world "docs" "/out/" "docs" = Ok (app, graph) ∧
    AppType app = sbom.Purpose_UNKNOWN_PURPOSE.
Proof.
  exists (default both_app
            (match GetRuntimeClosureGraph demo_Unmarshal string demo_ParseString
                     demo_Analyse demo_world "docs" "/out/" "docs" with
             | Ok r => Some r.1 | Err _ => None end)).
  exists (default demo_graph
            (match GetRuntimeClosureGraph demo_Unmarshal string demo_ParseString
                     demo_Analyse demo_world "docs" "/out/" "docs" with
             | Ok r => Some r.2 | Err _ => None end)).
  split; vm_compute; reflexivity.
Qed.

Lemma closure_graph_success_witness :
  ∃ app graph,
    GetRuntimeClosureGraph demo_Unmarshal string demo_ParseString demo_Analyse
      demo_world "docs" "/out/" "docs" = Ok (app, graph) ∧
    Name app = "docs" ∧ Version app = "0.0.0".
Proof.
  destruct demo_docs_closure as (app & graph & H & _).
  exists app, graph. split; [exact H|].
  pose proof (closure_graph_success demo_Unmarshal string demo_ParseString
                demo_Analyse demo_world "docs" "/out/" "docs" app graph H)
    as (Hn & Hv & _).
  exact (conj Hn Hv).
Defined.

Lemma binary_hash_follows_app_type_witness :
  ∃ app graph,
    GetRuntimeClosureGraph demo_Unmarshal string demo_ParseString demo_Analyse
      demo_world "docs" "/out/" "docs" = Ok (app, graph) ∧
    AppType app = sbom.Purpose_UNKNOWN_PURPOSE ∧
    BinaryHash app = EmptyString.
Proof.
  destruct demo_docs_closure as (app & graph & H & Htype).
  exists app, graph. split; [exact H|]. split; [exact Htype|].
  pose proof (binary_hash_follows_app_type demo_Unmarshal string demo_ParseString
                demo_Analyse demo_world "docs" "/out/" "docs" app graph
                "/nix/store/q7-docs-0.1" [("README", IFile false "read me")]
                H eq_refl eq_refl eq_refl) as Hm.
  rewrite Htype in Hm. exact Hm.
Defined.

(** ** [addNarHashToGraph] in general *)

Lemma enrich_node_Name w n :
  gographviz.Name (enrich_node w n) = gographviz.Name n.
Proof.
  unfold enrich_node. destruct (GetNarHashFromPath _ _); [|done].
  by destruct (parseAppDetails _ _).
Qed.

Lemma enrich_node_other w n key :
  key ∉ enrichment_keys →
  gographviz.Attrs (enrich_node w n) !! key = gographviz.Attrs n !! key.
Proof.
  unfold enrichment_keys. intros Hkey.
  apply not_elem_of_cons in Hkey as [? Hkey].
  apply not_elem_of_cons in Hkey as [? Hkey].
  apply not_elem_of_cons in Hkey as [? _].
  unfold enrich_node. destruct (GetNarHashFromPath _ _); [|done].
  destruct (parseAppDetails _ _); simpl; by simplify_map_eq.
Qed.

Lemma enrich_node_keeps w n key :
  is_Some (gographviz.Attrs n !! key) →
  is_Some (gographviz.Attrs (enrich_node w n) !! key).
Proof.
  intros Hsome. unfold enrich_node. destruct (GetNarHashFromPath _ _); [|done].
  destruct (parseAppDetails _ _); simpl;
    repeat (rewrite lookup_insert; case_decide; [by eexists|]); done.
Qed.

(** X12. Whatever the schedule, [addNarHashToGraph] leaves the edges, the
    number of nodes, their order and their names as they were; in every
    node it keeps every attribute other than [hash], [name] and [version]
    at its value, and it removes no attribute. *)
Theorem enrichment_only_adds_attributes w g g' :
  addNarHashToGraph_runs w g g' →
  gographviz.Edges g' = gographviz.Edges g ∧
  gographviz.Name <$> gographviz.Nodes g' = gographviz.Name <$> gographviz.Nodes g ∧
  ∀ i n n',
    gographviz.Nodes g !! i = Some n → gographviz.Nodes g' !! i = Some n' →
    (∀ key, key ∉ enrichment_keys →
            gographviz.Attrs n' !! key = gographviz.Attrs n !! key) ∧
    (∀ key, is_Some (gographviz.Attrs n !! key) →
            is_Some (gographviz.Attrs n' !! key)).
Proof.
  intros ->%addNarHashToGraph_runs_iff. simpl. split; [done|]. split.
  - rewrite <-list_fmap_compose. apply list_fmap_ext. intros i n _.
    apply enrich_node_Name.
  - intros i n n' Hn Hn'. rewrite list_lookup_fmap, Hn in Hn'.
    injection Hn' as <-. split.
    + intros key. apply enrich_node_other.
    + intros key. apply enrich_node_keeps.
Qed.

Lemma enrichment_only_adds_attributes_witness :
  gographviz.Attrs (enrich_node demo_world2 (demo_node "f2-tools-2.1")) !! "shape"
  = Some "box".
Proof.
  destruct (enrichment_only_adds_attributes demo_world2 demo_graph2 _
              (proj2 (addNarHashToGraph_runs_iff demo_world2 demo_graph2 _) eq_refl))
    as (_ & _ & H).
  apply (proj1 (H 2%nat (demo_node "f2-tools-2.1")
                  (enrich_node demo_world2 (demo_node "f2-tools-2.1"))
                  eq_refl eq_refl) "shape").
  by apply (bool_decide_unpack _).
Defined.

Lemma parse_short_path_fails w path :
  (List.length (segments path) < 3)%nat → ∃ e, parseAppDetails w path = Err e.
Proof.
  unfold segments. intros Hshort%Nat.ltb_lt. unfold parseAppDetails.
  rewrite Hshort. destruct (os.ReadDir w path); eauto.
Qed.

(** X13. A node whose store path exists but is a regular file, or has a
    name of fewer than three segments, gets the attribute [hash] and
    nothing else: [name] and [version] are not written. *)
Theorem hash_only_when_not_an_app w g g' i n t :
  addNarHashToGraph_runs w g g' →
  gographviz.Nodes g !! i = Some n →
  os.resolve w false (store_path n) = inr t →
  (∃ x data, os.resolve w true (store_path n) = inr (IFile x data)) ∨
  (List.length (segments (store_path n)) < 3)%nat →
  gographviz.Nodes g' !! i
  = Some (set_attr n "hash"
            (nixbase32.EncodeToString (sha256.Sum256 (nar.archive t)))).
Proof.
  intros ->%addNarHashToGraph_runs_iff Hn Ht Hwhy. simpl.
  rewrite list_lookup_fmap, Hn. simpl. f_equal.
  unfold enrich_node. fold (store_path n).
  rewrite (GetNarHashFromPath_Lstat _ _ _ Ht).
  destruct Hwhy as [(x & data & Hfile)|Hshort].
  - unfold parseAppDetails, os.ReadDir. by rewrite Hfile.
  - destruct (parse_short_path_fails w (store_path n) Hshort) as [e ->]. done.
Qed.

Lemma hash_only_when_not_an_app_witness :
  gographviz.Nodes (addNarHashToGraph demo_world2 demo_graph2) !! 0%nat
  = Some (set_attr (demo_node "h4-patch") "hash"
            (nixbase32.EncodeToString
               (sha256.Sum256 (nar.archive (IFile false "diff"))))) ∧
  gographviz.Nodes (addNarHashToGraph demo_world2 demo_graph2) !! 1%nat
  = Some (set_attr (demo_node "i5-lone") "hash"
            (nixbase32.EncodeToString (sha256.Sum256 (nar.archive (IDir []))))).
Proof.
  pose proof (proj2 (addNarHashToGraph_runs_iff demo_world2 demo_graph2 _) eq_refl)
    as Hrun.
  split.
  - refine (hash_only_when_not_an_app demo_world2 demo_graph2 _ 0
              (demo_node "h4-patch") (IFile false "diff") Hrun eq_refl eq_refl _).
    left. by exists false, "diff".
  - refine (hash_only_when_not_an_app demo_world2 demo_graph2 _ 1
              (demo_node "i5-lone") (IDir []) Hrun eq_refl eq_refl _).
    right. vm_compute. lia.
Defined.

Lemma set_attr_eq n1 n2 :
  gographviz.Name n1 = gographviz.Name n2 →
  gographviz.Attrs n1 = gographviz.Attrs n2 → n1 = n2.
Proof. destruct n1, n2. simpl. by intros -> ->. Qed.

Lemma enrich_node_idem w n : enrich_node w (enrich_node w n) = enrich_node w n.
Proof.
  apply set_attr_eq; [by rewrite !enrich_node_Name|].
  unfold enrich_node at 1. unfold node_path. rewrite enrich_node_Name.
  fold (node_path n). unfold enrich_node.
  destruct (GetNarHashFromPath _ _) as [hash|]; [|done].
  destruct (parseAppDetails _ _) as [app|]; simpl.
  - apply map_eq. intros key.
    destruct (decide (key = "version")) as [->|]; [by simplify_map_eq|].
    destruct (decide (key = "name")) as [->|]; [by simplify_map_eq|].
    destruct (decide (key = "hash")) as [->|]; by simplify_map_eq.
  - by rewrite insert_insert_eq.
Qed.

(** X14. Enriching twice is enriching once: a second call on the graph
    the first call left, with the store unchanged, changes nothing. *)
Theorem enrichment_idempotent w g g' g'' :
  addNarHashToGraph_runs w g g' → addNarHashToGraph_runs w g' g'' → g'' = g'.
Proof.
  intros ->%addNarHashToGraph_runs_iff ->%addNarHashToGraph_runs_iff.
  unfold addNarHashToGraph. simpl. f_equal.
  rewrite <-list_fmap_compose. apply list_fmap_ext. intros i n _.
  apply enrich_node_idem.
Qed.

Lemma enrichment_idempotent_witness :
  addNarHashToGraph demo_world2 (addNarHashToGraph demo_world2 demo_graph2)
  = addNarHashToGraph demo_world2 demo_graph2.
Proof.
  exact (enrichment_idempotent demo_world2 demo_graph2 _ _
           (proj2 (addNarHashToGraph_runs_iff demo_world2 demo_graph2 _) eq_refl)
           (proj2 (addNarHashToGraph_runs_iff demo_world2 _ _) eq_refl)).
Defined.

(** X15. From the label to the attributes: a node whose name is a store
    path name [digest-name-version] in double quotes (no quote inside, no
    hyphen in the digest nor in the version), and whose store path is a
    directory, ends with the NAR hash of that directory as [hash], the
    empty string as [name] and the version as [version]. *)
Theorem label_to_attributes w g g' i n d mid v es :
  addNarHashToGraph_runs w g g' →
  gographviz.Nodes g !! i = Some n →
  gographviz.Name n = quoted (d +:+ "-" +:+ mid +:+ "-" +:+ v) →
  quote_free (d +:+ "-" +:+ mid +:+ "-" +:+ v) →
  hyphen_free d → hyphen_free v →
  os.resolve w false ("/nix/store/" +:+ d +:+ "-" +:+ mid +:+ "-" +:+ v)
    = inr (IDir es) →
  ∃ n', gographviz.Nodes g' !! i = Some n' ∧
        gographviz.Attrs n' !! "hash"
          = Some (nixbase32.EncodeToString (sha256.Sum256 (nar.archive (IDir es)))) ∧
        gographviz.Attrs n' !! "name" = Some EmptyString ∧
        gographviz.Attrs n' !! "version" = Some v.
Proof.
  intros ->%addNarHashToGraph_runs_iff Hn Hname Hq Hd Hv Hdir. simpl.
  exists (enrich_node w n). split; [by rewrite list_lookup_fmap, Hn|].
  unfold enrich_node, node_path, CleanNameFromGraph, strings.ReplaceAll.
  rewrite Hname, Trim_quoted, replace_quote_free by done.
  rewrite (GetNarHashFromPath_Lstat _ _ _ Hdir).
  pose proof (resolve_nofollow _ _ _ Hdir eq_refl) as Hdir'.
  unfold parseAppDetails. rewrite (ReadDir_dir _ _ _ Hdir').
  fold (segments ("/nix/store/" +:+ d +:+ "-" +:+ mid +:+ "-" +:+ v)).
  destruct (store_path_first_last d mid v Hd Hv) as (-> & -> & ->).
  simpl. by simplify_map_eq.
Qed.

Lemma label_to_attributes_witness :
  ∃ n', gographviz.Nodes (addNarHashToGraph demo_world2 demo_graph2) !! 2%nat = Some n' ∧
        gographviz.Attrs n' !! "name" = Some EmptyString ∧
        gographviz.Attrs n' !! "version" = Some "2.1".
Proof.
  destruct (label_to_attributes demo_world2 demo_graph2 _ 2
              (demo_node "f2-tools-2.1") "f2" "tools" "2.1" _
              (proj2 (addNarHashToGraph_runs_iff demo_world2 demo_graph2 _) eq_refl)
              eq_refl eq_refl eq_refl eq_refl eq_refl eq_refl)
    as (n' & Hn' & _ & Hname & Hversion).
  exists n'. exact (conj Hn' (conj Hname Hversion)).
Defined.

(** ** The two digests *)

Lemma string_of_bytes_length l : String.length (string_of_bytes l) = List.length l.
Proof.
  unfold string_of_bytes. induction l as [|b l IH]; [done|].
  cbn [fmap list_fmap string_of_list_ascii String.length List.length] in *.
  by rewrite IH.
Qed.

Lemma bytes_of_string_length s : List.length (bytes_of_string s) = String.length s.
Proof.
  unfold bytes_of_string. rewrite length_fmap.
  induction s as [|c s IH]; [done|]. simpl. by rewrite IH.
Qed.

Lemma bytes_of_string_range s b :
  b ∈ bytes_of_string s → (0 ≤ b < 256)%Z.
Proof.
  unfold bytes_of_string. intros (c & -> & _)%list_elem_of_fmap.
  pose proof (N_ascii_bounded c). lia.
Qed.

Lemma concat_lengths (l : list string) n :
  Forall (λ s, String.length s = n) l →
  String.length (String.concat EmptyString l) = (n * List.length l)%nat.
Proof.
  induction 1 as [|s l Hs Hl IH]; [simpl; lia|].
  destruct l as [|s' l].
  - simpl. lia.
  - change (String.concat EmptyString (s :: s' :: l))
      with (s +:+ EmptyString +:+ String.concat EmptyString (s' :: l)).
    rewrite !length_append, IH. simpl. lia.
Qed.

Lemma be_bytes_length n x : List.length (sha256.be_bytes n x) = n.
Proof.
  revert x. induction n as [|n IH]; intros x; [done|].
  simpl. rewrite length_app, IH. simpl. lia.
Qed.

Lemma block_length h blk :
  List.length h = 8%nat → List.length (sha256.block h blk) = 8%nat.
Proof.
  intros Hh. unfold sha256.block.
  rewrite length_zip_with. unfold sha256.list_of. simpl. lia.
Qed.

Lemma Sum256_length data : String.length (sha256.Sum256 data) = 32%nat.
Proof.
  unfold sha256.Sum256, sha256.digest. rewrite string_of_bytes_length.
  set (blocks := sha256.chunks _ _ _).
  assert (List.length (foldl sha256.block sha256.init blocks) = 8%nat) as H.
  { assert (List.length sha256.init = 8%nat) as Hinit by (vm_compute; reflexivity).
    revert Hinit. generalize sha256.init. clear.
    induction blocks as [|b blocks IH]; intros h Hh; [done|].
    simpl. apply IH. by apply block_length. }
  revert H. generalize (foldl sha256.block sha256.init blocks). clear.
  intros h. do 9 (destruct h as [|? h]; try done).
Qed.

Lemma hex_digit_length n : (0 ≤ n < 16)%Z → String.length (hex.digit n) = 1%nat.
Proof.
  intros Hn. unfold hex.digit.
  assert (Z.to_nat n < 16)%nat as Hk by lia.
  revert Hk. generalize (Z.to_nat n). intros k Hk.
  do 16 (destruct k as [|k]; [done|]). lia.
Qed.

Lemma hex_length s :
  String.length (hex.EncodeToString s) = (2 * String.length s)%nat.
Proof.
  unfold hex.EncodeToString. rewrite (concat_lengths _ 2).
  - by rewrite length_fmap, bytes_of_string_length.
  - apply Forall_fmap, Forall_forall. intros b Hb%bytes_of_string_range. simpl.
    rewrite length_append, !hex_digit_length; [done| |].
    + change 15%Z with (Z.ones 4). rewrite Z.land_ones by lia.
      apply Z.mod_pos_bound. lia.
    + rewrite Z.shiftr_div_pow2 by lia. change (2 ^ 4)%Z with 16%Z.
      split; [apply Z.div_pos; lia|]. apply Z.div_lt_upper_bound; lia.
Qed.

Lemma nixbase32_char_length bs n : String.length (nixbase32.char_at bs n) = 1%nat.
Proof.
  unfold nixbase32.char_at. cbv zeta.
  match goal with |- context [Z.land ?c 31] => generalize c end. intros c.
  change 31%Z with (Z.ones 5). rewrite Z.land_ones by lia.
  pose proof (Z.mod_pos_bound c (2 ^ 5) ltac:(lia)) as Hc.
  assert (Z.to_nat (c mod 2 ^ 5) < 32)%nat as Hk by (change (2 ^ 5)%Z with 32%Z in *; lia).
  revert Hk. generalize (Z.to_nat (c mod 2 ^ 5)). intros k Hk.
  do 32 (destruct k as [|k]; [done|]). lia.
Qed.

Lemma nixbase32_length s :
  String.length s = 32%nat →
  String.length (nixbase32.EncodeToString s) = 52%nat.
Proof.
  intros Hs. unfold nixbase32.EncodeToString. cbv zeta.
  rewrite (concat_lengths _ 1).
  - rewrite length_fmap, length_reverse, length_seq, bytes_of_string_length, Hs.
    reflexivity.
  - apply Forall_fmap, Forall_forall. intros k _. apply nixbase32_char_length.
Qed.

(** X16. The two digests are told apart by their length: [fileSHA256]
    returns 64 characters, [GetNarHashFromPath] returns 52, so a binary
    hash and a NAR hash are never equal, whatever was hashed. *)
Theorem digests_differ w w' path path' h h' :
  fileSHA256 w path = Ok h →
  GetNarHashFromPath w' path' = Ok h' →
  String.length h = 64%nat ∧ String.length h' = 52%nat ∧ h ≠ h'.
Proof.
  unfold fileSHA256, GetNarHashFromPath.
  destruct (os.Open w path) as [file|]; [|done].
  destruct (os.ReadAll file) as [content|]; [|done].
  destruct (nar.DumpPath w' path') as [written|]; [|done].
  intros [= <-] [= <-].
  assert (String.length (hex.EncodeToString (sha256.Sum256 content)) = 64%nat) as H1
    by (by rewrite hex_length, Sum256_length).
  assert (String.length (nixbase32.EncodeToString (sha256.Sum256 written)) = 52%nat)
    as H2 by (apply nixbase32_length, Sum256_length).
  repeat split; [done..|]. intros Heq. rewrite Heq in H1. lia.
Qed.

Lemma digests_differ_witness :
  ∃ h h',
    fileSHA256 demo_world "/out/result/bin/mytool" = Ok h ∧
    GetNarHashFromPath demo_world "/out/result/bin/mytool" = Ok h' ∧
    h ≠ h'.
Proof.
  exists (hex.EncodeToString (sha256.Sum256 mytool_bytes)).
  exists (nixbase32.EncodeToString
            (sha256.Sum256 (nar.archive (IFile true mytool_bytes)))).
  assert (fileSHA256 demo_world "/out/result/bin/mytool"
          = Ok (hex.EncodeToString (sha256.Sum256 mytool_bytes))) as H1
    by reflexivity.
  assert (GetNarHashFromPath demo_world "/out/result/bin/mytool"
          = Ok (nixbase32.EncodeToString
                  (sha256.Sum256 (nar.archive (IFile true mytool_bytes))))) as H2
    by reflexivity.
  split; [exact H1|]. split; [exact H2|].
  exact (proj2 (proj2 (digests_differ _ _ _ _ _ _ H1 H2))).
Defined.

(** ** More on [CleanNameFromGraph], [GetAppDetails] and the artifact hash *)

(** X17. A label that holds no double quote at all is left as it is. *)
Theorem clean_plain_label s : quote_free s → CleanNameFromGraph s = s.
Proof.
  intros Hs. unfold CleanNameFromGraph, strings.Trim, strings.ReplaceAll.
  assert (∀ c, strings.mem c dquote = true → strings.mem c s = false) as Hfree.
  { intros c Hc. apply (mem_singleton c quote_char) in Hc. by subst c. }
  rewrite TrimLeft_free, TrimRight_free by done. by apply replace_quote_free.
Qed.

Lemma clean_plain_label_witness :
  CleanNameFromGraph "abc-img-2.0" = "abc-img-2.0".
Proof. apply clean_plain_label. reflexivity. Defined.

(** X18. [GetAppDetails] on a link to a store directory
    [digest-name-version] returns the version of the path (it is
    [GetRuntimeClosureGraph] that replaces it), the digest, the type of the
    directory and the NAR hash of the directory as ResultHash; Name and
    BinaryHash are empty. *)
Theorem GetAppDetails_fields w output symlink d mid v es :
  hyphen_free d → hyphen_free v →
  os.Readlink w (output +:+ symlink)
    = Ok ("/nix/store/" +:+ d +:+ "-" +:+ mid +:+ "-" +:+ v) →
  os.resolve w false ("/nix/store/" +:+ d +:+ "-" +:+ mid +:+ "-" +:+ v)
    = inr (IDir es) →
  GetAppDetails w output symlink
  = Ok {| Name := EmptyString; Version := v;
          AppType := findAppType (merge_sort os.name_le (os.entry_of <$> es));
          ResultHash :=
            nixbase32.EncodeToString (sha256.Sum256 (nar.archive (IDir es)));
          ResultDigest := d; BinaryHash := EmptyString |}.
Proof.
  intros Hd Hv Hlink Hdir. unfold GetAppDetails.
  rewrite Hlink, (GetNarHashFromPath_Lstat _ _ _ Hdir).
  pose proof (resolve_nofollow _ _ _ Hdir eq_refl) as Hdir'.
  unfold parseAppDetails. rewrite (ReadDir_dir _ _ _ Hdir').
  fold (segments ("/nix/store/" +:+ d +:+ "-" +:+ mid +:+ "-" +:+ v)).
  by destruct (store_path_first_last d mid v Hd Hv) as (-> & -> & ->).
Qed.

Lemma GetAppDetails_fields_witness :
  ∃ hash,
    GetAppDetails demo_world2 "/out/" "tools"
    = Ok {| Name := EmptyString; Version := "2.1";
            AppType := sbom.Purpose_EXECUTABLE;
            ResultHash := hash; ResultDigest := "f2"; BinaryHash := EmptyString |}.
Proof.
  eexists.
  exact (GetAppDetails_fields demo_world2 "/out/" "tools" "f2" "tools" "2.1" _
           eq_refl eq_refl eq_refl eq_refl).
Defined.

Section closure_graph_errors.
Variable json_Unmarshal : string → result imgv1.Manifest.
Variable Ast : Type.
Variable ParseString : string → result Ast.
Variable Analyse : Ast → gographviz.Graph → result gographviz.Graph.

(** X19. A failure of [artifactHash] fails the whole call after the graph
    has been built and enriched: with an empty [bin] in the output
    directory [GetRuntimeClosureGraph] returns [failed to get artifact
    hash: no result binary found] and no graph. *)
Theorem closure_graph_empty_bin w appName output symlink app0 ast g0 es :
  GetAppDetails w output symlink = Ok app0 →
  ExitOk (run w "nix-store" ["-q"; "--graph"; output +:+ symlink]) = true →
  ParseString (Stdout (run w "nix-store" ["-q"; "--graph"; output +:+ symlink]))
    = Ok ast →
  Analyse ast gographviz.NewGraph = Ok g0 →
  os.resolve w true (output +:+ symlink) = inr (IDir es) →
  os.lookup_entry "bin" es = Some (IDir []) →
  GetRuntimeClosureGraph json_Unmarshal Ast ParseString Analyse
    w appName output symlink
  = Err (errorString "failed to get artifact hash: no result binary found").
Proof.
  intros Happ Hexit Hast Hg0 Hout Hbin. unfold GetRuntimeClosureGraph.
  rewrite Happ, Hexit, Hast, Hg0. cbn [negb].
  by rewrite (artifactHash_empty_bin json_Unmarshal w output symlink es Hout Hbin).
Qed.
End closure_graph_errors.

Lemma demo_empty_details :
  ∃ app0, GetAppDetails demo_world2 "/out/" "empty" = Ok app0.
Proof.
  exists (default both_app
            (match GetAppDetails demo_world2 "/out/" "empty" with
             | Ok a => Some a | Err _ => None end)).
  vm_compute. reflexivity.
Qed.

Lemma closure_graph_empty_bin_witness :
  GetRuntimeClosureGraph demo_Unmarshal string demo_ParseString demo_Analyse2
    demo_world2 "empty" "/out/" "empty"
  = Err (errorString "failed to get artifact hash: no result binary found").
Proof.
  destruct demo_empty_details as [app0 Happ].
  exact (closure_graph_empty_bin demo_Unmarshal string demo_ParseString
           demo_Analyse2 demo_world2 "empty" "/out/" "empty" app0 _ _ _
           Happ eq_refl eq_refl eq_refl eq_refl eq_refl).
Defined.
